(** * docker-credential-vault-login: the credential helper and its token cache

    A shallow embedding of
      - [vault-login/cache/token.go]: the cached-token record and its two
        time predicates, and
      - [helper/command.go]: the credential-store operations [Add], [Delete],
        [List] and [Get], the last one split into its sequential part (up to
        the two [go] statements) and the concurrent login / sink-write
        handshake that follows, and
      - [aws/iam_auth.go]: the request that the IAM login has signed.

    Everything the helper calls outside these two files (the Vault client,
    the agent's auth handler and sink server, the configuration loader, the
    log writer, the reader of the cached tokens) is an environment: a
    record of operations on an abstract world for the sequential part, and
    environment transitions of a labelled transition system for the
    concurrent part. *)

From Stdlib Require Import ZArith List String Ascii DecimalString Bool Lia Arith.
Import ListNotations.

Local Open Scope string_scope.
Local Open Scope Z_scope.

(* ================================================================== *)
(** * Package [time], as far as [token.go] uses it *)
(* ================================================================== *)

Module time.

(** A [Duration] is a signed 64-bit count of nanoseconds. *)
Definition Duration := Z.

Definition wrap64 (z : Z) : Z := (z + 2 ^ 63) mod 2 ^ 64 - 2 ^ 63.

Definition Nanosecond : Duration := 1.
Definition Second : Duration := 1000000000.

(** Multiplication of two [Duration]s is [int64] multiplication. *)
Definition mul (a b : Duration) : Duration := wrap64 (a * b).

(** An instant, in nanoseconds since the Unix epoch.  A [time.Time]
    without a monotonic reading holds the seconds since 1 January of the
    year 1 in an [int64], and the nanoseconds within the second; [After]
    and [Before] compare the seconds and then the nanoseconds, which is
    the order of the instants. *)
Definition Time := Z.

(** [unixToInternal]: the seconds from the year 1 to the Unix epoch. *)
Definition unixToInternal : Z :=
  (1969 * 365 + 1969 / 4 - 1969 / 100 + 1969 / 400) * 86400.

(** [time.Unix(sec, nsec)]: [nsec] is brought into [0, 1e9) and
    [unixToInternal] is added to [sec], all in [int64], so that the sum
    wraps for a [sec] beyond [2^63 - 1 - unixToInternal]. *)
Definition Unix (sec nsec : Z) : Time :=
  let '(sec, nsec) :=
    if (nsec <? 0) || (Second <=? nsec) then
      let n := Z.quot nsec Second in
      let sec := wrap64 (sec + n) in
      let nsec := nsec - n * Second in
      if nsec <? 0 then (wrap64 (sec - 1), nsec + Second) else (sec, nsec)
    else (sec, nsec) in
  (wrap64 (sec + unixToInternal) - unixToInternal) * Second + nsec.

(** The seconds for which [time.Unix] does not wrap. *)
Definition inRange (sec : Z) : Prop :=
  - 2 ^ 63 <= sec + unixToInternal <= 2 ^ 63 - 1.

(** [t.Add(d)], on instants.  The seconds of a [time.Time] are an
    [int64]; an [Add] that would leave it (within ten minutes of the
    earliest instant a [time.Time] holds, 292 billion years back) is
    outside this model. *)
Definition Add (t : Time) (d : Duration) : Time := t + d.

(** [t.After(u)]: the instant [t] is after [u]. *)
Definition After (t u : Time) : bool := u <? t.

(** [t.Before(u)]: the instant [t] is before [u]. *)
Definition Before (t u : Time) : bool := t <? u.

End time.

(* ================================================================== *)
(** * [vault-login/cache/token.go] *)
(* ================================================================== *)

Module cache.

(** [const GracePeriodSeconds int64 = 600] *)
Definition GracePeriodSeconds : Z := 600.

(** [config.VaultAuthMethod], a string type used for bookkeeping. *)
Definition VaultAuthMethod := string.

Record CachedToken := mkCachedToken {
  Token : string;
  Expiration : Z;          (* int64, a Unix timestamp in seconds *)
  Renewable : bool;
  AuthMethod : VaultAuthMethod
}.

(** [func (t *CachedToken) Expired() bool], with [time.Now()] passed in. *)
Definition Expired (t : CachedToken) (now : time.Time) : bool :=
  time.After now (time.Unix (Expiration t) 0).

(** [func (t *CachedToken) EligibleForRenewal() bool], with [time.Now()]
    passed in. *)
Definition EligibleForRenewal (t : CachedToken) (now : time.Time) : bool :=
  let expiration := time.Unix (Expiration t) 0 in
  let windowStart :=
    time.Add expiration
      (time.mul time.Second (time.wrap64 (-1 * GracePeriodSeconds))) in
  Renewable t && time.Before now expiration && time.After now windowStart.

(** The start of the renewal window of a token, as an instant. *)
Definition windowStart (t : CachedToken) : time.Time :=
  time.Unix (Expiration t) 0 - GracePeriodSeconds * time.Second.

End cache.

(* ================================================================== *)
(** * [helper/command.go]: data *)
(* ================================================================== *)

Module helper.

Local Open Scope string_scope.

(** Go [error] values.  [credentials.NewErrCredentialsNotFound()] is a
    value of its own type; every other error here is made by [fmt.Errorf]
    or comes out of a library with a message. *)
Inductive error :=
| errorString (msg : string)
| errCredentialsNotFound.

(** [err.Error()] *)
Definition Error (e : error) : string :=
  match e with
  | errorString msg => msg
  | errCredentialsNotFound => "credentials not found in native keychain"
  end.

(** The usual [(value, err)] result of a call whose value is used only
    when [err == nil]. *)
Inductive result (A : Type) :=
| ok (a : A)
| err (e : error).
Arguments ok {A} a.
Arguments err {A} e.

Definition envConfigFile : string := "DOCKER_CREDS_CONFIG_FILE".
Definition defaultConfigFile : string :=
  "/etc/docker-credential-vault-login/config.hcl".

(** [var notImplementedError = fmt.Errorf("not implemented")] *)
Definition notImplementedError : error := errorString "not implemented".

(** [var defaultTimeout = 10 * time.Second] *)
Definition defaultTimeout : time.Duration := time.mul 10 time.Second.

(** [defaultTimeout.String()] *)
Definition defaultTimeout_String : string := "10s".

(** ** The agent's configuration ([vault/command/agent/config]) *)

(** A value of type [interface{}] in a configuration map. *)
Inductive any :=
| anyString (s : string)
| anyInt (n : Z)
| anyBool (b : bool).

(** [map[string]interface{}], with the lookup [m[k]]. *)
Definition cfgmap := list (string * any).

Fixpoint lookup (k : string) (m : cfgmap) : option any :=
  match m with
  | [] => None
  | (k', v) :: m' => if String.eqb k k' then Some v else lookup k m'
  end.

Record Method := mkMethod {
  m_Type : string;
  m_MountPath : string;
  m_WrapTTL : time.Duration;
  m_Config : cfgmap
}.

Record Sink := mkSink {
  s_Type : string;
  s_WrapTTL : time.Duration;
  s_DHType : string;
  s_DHPath : string;
  s_AAD : string;
  s_Config : cfgmap
}.

(** [LoadConfig] does not hand out an [auto_auth] block without its
    method, so [Method] is not optional here. *)
Record AutoAuth := mkAutoAuth {
  aa_Method : Method;
  aa_Sinks : list Sink
}.

Record Config := mkConfig {
  cfg_AutoAuth : option AutoAuth
}.

(** ** Loggers ([go-hclog]) *)

Inductive Level := Info | ErrorLevel.

(** A handle on something the environment made: an open log file, a sink,
    a login method. *)
Definition handle := Z.

Inductive Output :=
| Stderr
| Writer (w : handle).

Record Logger := mkLogger {
  lg_Name : string;
  lg_Level : Level;
  lg_Output : Output
}.

(** [hclog.New(opts)] *)
Definition hclog_New (opts : Logger) : Logger := opts.

(** [l.Named(name)] *)
Definition Named (l : Logger) (name : string) : Logger :=
  mkLogger (if String.eqb (lg_Name l) "" then name
            else lg_Name l ++ "." ++ name)
           (lg_Level l) (lg_Output l).

(** ** The Vault client ([vault/api]) *)

Record Client := mkClient {
  c_id : handle;
  c_token : string
}.

(** [c.SetToken(v)] and [c.ClearToken()] *)
Definition SetToken (v : string) (c : Client) : Client := mkClient (c_id c) v.
Definition ClearToken (c : Client) : Client := mkClient (c_id c) "".

(** [credentials.Credentials], and what [vault.GetCredentials] returns. *)
Record Credentials := mkCredentials {
  ServerURL : string;
  Username : string;
  Password : string
}.

(** ** The helper *)

Record HelperOptions := mkHelperOptions {
  opt_Logger : option Logger;
  opt_Client : option Client
}.

Record Helper := mkHelper {
  logger : option Logger;
  client : option Client
}.

(** [func NewHelper(opts *HelperOptions) *Helper] *)
Definition NewHelper (opts : option HelperOptions) : Helper :=
  let opts := match opts with
              | None => mkHelperOptions None None
              | Some o => o
              end in
  mkHelper (opt_Logger opts) (opt_Client opts).

(** ** Sinks and login methods ([vault/command/agent/sink], [.../auth]) *)

Record SinkConfig := mkSinkConfig {
  sc_Logger : Logger;
  sc_Config : cfgmap;
  sc_Client : handle;          (* the shared [*api.Client], by reference *)
  sc_WrapTTL : time.Duration;
  sc_DHType : string;
  sc_DHPath : string;
  sc_AAD : string;
  sc_Sink : option handle      (* [config.Sink], set once the sink is made *)
}.

Record AuthConfig := mkAuthConfig {
  ac_Logger : Logger;
  ac_MountPath : string;
  ac_Config : cfgmap
}.

(** The constructors [buildMethod] chooses from. *)
Inductive MethodKind :=
| alicloud | aws | azure | gcp | jwt | kubernetes | approle.

(** [auth.AuthMethod] *)
Record AuthMethod := mkAuthMethod {
  am_kind : MethodKind;
  am_impl : handle
}.

(** [sink.SinkServerConfig] and [auth.AuthHandlerConfig], as [Get] fills
    them in. *)
Record SinkServerConfig := mkSinkServerConfig {
  ssc_Logger : Logger;
  ssc_Client : handle;
  ssc_ExitAfterAuth : bool
}.

Record AuthHandlerConfig := mkAuthHandlerConfig {
  ahc_Logger : Logger;
  ahc_Client : handle;
  ahc_WrapTTL : time.Duration
}.

Definition failed {A} (r : result A) : bool :=
  match r with
  | ok _ => false
  | err _ => true
  end.

(** ** The environment of the sequential part

    Every call that leaves [command.go] is an operation on an abstract
    world; the helper's code threads the world through its calls in
    program order. *)
Record Env := mkEnv {
  World : Type;
  (* logging.LogWriter(nil) *)
  LogWriter : World -> World * result handle;
  (* os.Getenv(name) *)
  Getenv : string -> World -> string;
  (* config.LoadConfig(configFile, logger): (config, err) *)
  LoadConfig :
    string -> option Logger -> World -> World * (option Config * option error);
  (* api.NewClient(nil) *)
  NewClient : World -> World * result Client;
  (* client.Clone() *)
  Clone : Client -> World -> World * result Client;
  (* cache.GetCachedTokens(sinks, client): (tokens, err) *)
  GetCachedTokens :
    list Sink -> option Client -> World -> World * (list string * option error);
  (* client.Auth().Token().RenewTokenAsSelf(token, increment): err *)
  RenewTokenAsSelf : Client -> string -> Z -> World -> World * option error;
  (* vault.GetCredentials(secret, client) *)
  GetCredentials : string -> Client -> World -> World * result Credentials;
  (* file.NewFileSink(config) *)
  NewFileSink : SinkConfig -> World -> World * result handle;
  (* alicloud.NewAliCloudAuthMethod(authConfig), aws.NewAWSAuthMethod, ... *)
  NewAuthMethod : MethodKind -> AuthConfig -> World -> World * result handle;
  (* strconv.Quote(s): what the verb %q of package fmt writes for a string *)
  Quote : string -> string
}.

(** What the helper does that can be seen from outside, in order. *)
Inductive event :=
| EvLog (name : string) (lvl : Level) (msg : string)
| EvLogWriter
| EvGetenv (name : string)
| EvLoadConfig (file : string)
| EvNewClient
| EvClone
| EvGetCachedTokens (tokens : list string)
| EvRenew (token : string)
| EvSetToken (token : string)
| EvClearToken
| EvGetCredentials (secret : string) (token : string)
| EvNewFileSink
| EvNewAuthMethod (k : MethodKind)
| EvGoAuthHandler (k : MethodKind)
| EvGoSinkServer (nsinks : nat)
| EvClose (w : handle).

(** What [Get] hands back: a [return], a run-time panic, or (for the
    statements of a function body) falling through to the next one. *)
Inductive flow (A : Type) :=
| Next (a : A)
| Return (username password : string) (e : option error)
| Panic.
Arguments Next {A} a.
Arguments Return {A} username password e.
Arguments Panic {A}.

(** What the two [go] statements of [Get] start with: the state [Get] has
    built when it reaches its first [select]. *)
Record Handshake := mkHandshake {
  hs_secret : string;
  hs_logger : Logger;
  hs_client : Client;
  hs_method : AuthMethod;
  hs_sinks : list SinkConfig;
  hs_ss : SinkServerConfig;
  hs_ah : AuthHandlerConfig;
  hs_timeout : time.Duration
}.

(** The ways a call of [Get] can go on from its sequential part. *)
Inductive Outcome :=
| Returns (username password : string) (e : option error)
| Panics
| Spawns (hs : Handshake).

(** What [strconv.Quote] writes for a string of printable ASCII: the
    string between double quotes, with a backslash before each double
    quote and each backslash in it.  The example environments quote with
    it. *)
Fixpoint exampleEscape (s : string) : string :=
  match s with
  | EmptyString => EmptyString
  | String c s' =>
      if (Nat.eqb (Ascii.nat_of_ascii c) 34 || Nat.eqb (Ascii.nat_of_ascii c) 92)%bool
      then String (Ascii.ascii_of_nat 92) (String c (exampleEscape s'))
      else String c (exampleEscape s')
  end.

Definition exampleQuote (s : string) : string :=
  let dq := String (Ascii.ascii_of_nat 34) EmptyString in
  dq ++ exampleEscape s ++ dq.

(* ================================================================== *)
(** * [helper/command.go]: the sequential code *)
(* ================================================================== *)

Section Sequential.

Variable env : Env.

(** The state the code runs in: the world outside, the receiver [h], the
    events so far and the deferred calls of the running [Get]. *)
Record St := mkSt {
  world : World env;
  self : Helper;
  events : list event;
  deferred : list handle
}.

(** A statement: a state transformer that falls through, returns from
    [Get] or panics. *)
Definition M (A : Type) : Type := St -> St * flow A.

Definition ret {A} (a : A) : M A := fun st => (st, Next a).

Definition bind {A B} (m : M A) (k : A -> M B) : M B :=
  fun st =>
    match m st with
    | (st', Next a) => k a st'
    | (st', Return u p e) => (st', Return u p e)
    | (st', Panic) => (st', Panic)
    end.

Notation "x <- m ;; k" := (bind m (fun x => k))
  (at level 61, m at next level, right associativity).
Notation "' pat <- m ;; k" := (bind m (fun x => match x with pat => k end))
  (at level 61, pat pattern, m at next level, right associativity).
Notation "m ;; k" := (bind m (fun _ => k))
  (at level 61, right associativity).

(** [return u, p, e] *)
Definition returns {A} (u p : string) (e : option error) : M A :=
  fun st => (st, Return u p e).

(** [return "", "", credentials.NewErrCredentialsNotFound()] *)
Definition notFound {A} : M A := returns "" "" (Some errCredentialsNotFound).

Definition emit (e : event) : M unit :=
  fun st => (mkSt (world st) (self st) (events st ++ [e]) (deferred st), Next tt).

(** A call into the environment, recorded as an event. *)
Definition call {A} (op : World env -> World env * A) (ev : A -> event) : M A :=
  fun st =>
    let (w, a) := op (world st) in
    (mkSt w (self st) (events st ++ [ev a]) (deferred st), Next a).

(** [defer w.Close()] *)
Definition defer (w : handle) : M unit :=
  fun st => (mkSt (world st) (self st) (events st) (w :: deferred st), Next tt).

(** [h.logger = l] and [h.client = c] *)
Definition setLogger (l : Logger) : M unit :=
  fun st => (mkSt (world st) (mkHelper (Some l) (client (self st)))
                  (events st) (deferred st), Next tt).

Definition setClient (c : Client) : M unit :=
  fun st => (mkSt (world st) (mkHelper (logger (self st)) (Some c))
                  (events st) (deferred st), Next tt).

(** A method call on [h.logger]; on the nil interface value it is a nil
    dereference. *)
Definition withLogger {A} (k : Logger -> M A) : M A :=
  fun st =>
    match logger (self st) with
    | None => (st, Panic)
    | Some l => k l st
    end.

(** [h.logger.Error(msg, ...)] and [h.logger.Info(msg, ...)] *)
Definition log (lvl : Level) (msg : string) : M unit :=
  withLogger (fun l => emit (EvLog (lg_Name l) lvl msg)).

(** A method call on [h.client]; on the nil pointer it is a nil
    dereference. *)
Definition withClient {A} (k : Client -> M A) : M A :=
  fun st =>
    match client (self st) with
    | None => (st, Panic)
    | Some c => k c st
    end.

(** [if err != nil { body }] for an [err] that is only tested. *)
Definition ifErr (e : option error) (body : M unit) : M unit :=
  match e with
  | Some _ => body
  | None => ret tt
  end.

(** ** [Add], [Delete], [List] (lines 59-69) *)

Definition Add (creds : Credentials) (st : St) : St * option error :=
  (st, Some notImplementedError).

Definition Delete (serverURL : string) (st : St) : St * option error :=
  (st, Some notImplementedError).

(** The map is [None] for Go's nil map. *)
Definition List (st : St) : St * (option (list (string * string)) * option error) :=
  (st, (None, Some notImplementedError)).

(** ** [Get], lines 72-89: the logger *)
Definition Get_logger : M unit :=
  fun st =>
    match logger (self st) with
    | Some _ => ret tt st
    | None =>
        (let opts := mkLogger "helper.get" ErrorLevel Stderr in
         r <- call (LogWriter env) (fun _ => EvLogWriter) ;;
         opts <- match r with
                 | err e =>
                     log ErrorLevel
                       "Error opening log file. Logging errors to stderr instead." ;;
                     ret opts
                 | ok w =>
                     defer w ;;
                     ret (mkLogger (lg_Name opts) (lg_Level opts) (Writer w))
                 end ;;
         setLogger (hclog_New opts)) st
    end.

(** ** [Get], lines 91-125: the configuration and the secret's path *)
Definition Get_config : M (AutoAuth * string) :=
  f <- call (fun w => (w, Getenv env envConfigFile w))
            (fun _ => EvGetenv envConfigFile) ;;
  let configFile := if String.eqb f "" then defaultConfigFile else f in
  '(config, e) <- (fun st => call (LoadConfig env configFile (logger (self st)))
                                  (fun _ => EvLoadConfig configFile) st) ;;
  ifErr e
    (log ErrorLevel ("Error loading configuration from " ++ configFile) ;;
     notFound) ;;
  config <- match config with
            | None =>
                log ErrorLevel
                  ("No configuration read. Please provide the configuration file with the "
                   ++ envConfigFile ++ " environment variable.") ;;
                notFound
            | Some config => ret config
            end ;;
  autoAuth <- match cfg_AutoAuth config with
              | None =>
                  log ErrorLevel
                    ("No auto_auth block found in configuration file " ++ configFile) ;;
                  notFound
              | Some a => ret a
              end ;;
  secretRaw <- match lookup "secret" (m_Config (aa_Method autoAuth)) with
               | None =>
                   log ErrorLevel
                     ("No 'secret' field found in auto_auth.method.config of "
                      ++ "configuration file " ++ configFile) ;;
                   notFound
               | Some v => ret v
               end ;;
  secret <- match secretRaw with
            | anyString s => ret s
            | _ =>
                log ErrorLevel
                  ("field auto_auth.method.config.secret of configuration file "
                   ++ configFile ++ " could not be converted to string") ;;
                notFound
            end ;;
  ret (autoAuth, secret).

(** ** [Get], lines 127-133: the client *)
Definition Get_client : M unit :=
  fun st =>
    match client (self st) with
    | Some _ => ret tt st
    | None =>
        (r <- call (NewClient env) (fun _ => EvNewClient) ;;
         match r with
         | err e =>
             log ErrorLevel "Error creating new Vault API client" ;;
             notFound
         | ok c => setClient c
         end) st
    end.

(** ** [Get], lines 135-141: the cached tokens *)
Definition Get_cachedTokens (autoAuth : AutoAuth) : M (list string) :=
  cloned <- withClient (fun c => call (Clone env c) (fun _ => EvClone)) ;;
  let cloned := match cloned with
                | ok c => Some c
                | err _ => None
                end in
  '(cachedTokens, e) <- call (GetCachedTokens env (aa_Sinks autoAuth) cloned)
                             (fun r => EvGetCachedTokens (fst r)) ;;
  ifErr e (log ErrorLevel "Error getting cached token(s). Re-authenticating.") ;;
  ret cachedTokens.

(** ** [Get], lines 144-148: renew the cached tokens *)
Fixpoint Get_renew (cachedTokens : list string) : M unit :=
  match cachedTokens with
  | [] => ret tt
  | token :: rest =>
      e <- withClient (fun c => call (RenewTokenAsSelf env c token 0)
                                     (fun _ => EvRenew token)) ;;
      ifErr e (log ErrorLevel "Error renewing token") ;;
      Get_renew rest
  end.

(** [h.client.SetToken(token)] and [h.client.ClearToken()] *)
Definition setToken (token : string) : M unit :=
  withClient (fun c => setClient (SetToken token c) ;; emit (EvSetToken token)).

Definition clearToken : M unit :=
  withClient (fun c => setClient (ClearToken c) ;; emit EvClearToken).

(** [vault.GetCredentials(secret, h.client)] *)
Definition getCredentials (secret : string) : M (result Credentials) :=
  withClient (fun c => call (GetCredentials env secret c)
                            (fun _ => EvGetCredentials secret (c_token c))).

(** ** [Get], lines 151-161: use any cached token to get the credentials *)
Fixpoint Get_useTokens (secret : string) (cachedTokens : list string) : M unit :=
  match cachedTokens with
  | [] => ret tt
  | token :: rest =>
      setToken token ;;
      r <- getCredentials secret ;;
      match r with
      | err e =>
          log ErrorLevel "Error reading secret from Vault" ;;
          Get_useTokens secret rest
      | ok creds => returns (Username creds) (Password creds) None
      end
  end.

(** ** [buildSinks] (lines 235-260)

    [sinks] is the slice built so far; the loop appends to it. *)
Fixpoint buildSinks_from (sinks : list SinkConfig) (ss : list Sink)
  : M (result (list SinkConfig)) :=
  match ss with
  | [] => ret (ok sinks)
  | sc :: rest =>
      if String.eqb (s_Type sc) "file" then
        config <- withLogger (fun l => withClient (fun c =>
                    ret (mkSinkConfig (Named l "sink.file") (s_Config sc) (c_id c)
                           (s_WrapTTL sc) (s_DHType sc) (s_DHPath sc) (s_AAD sc)
                           None))) ;;
        r <- call (NewFileSink env config) (fun _ => EvNewFileSink) ;;
        match r with
        | err e => ret (err (errorString ("Error creating file sink: " ++ Error e)))
        | ok s =>
            let config := mkSinkConfig (sc_Logger config) (sc_Config config)
                            (sc_Client config) (sc_WrapTTL config)
                            (sc_DHType config) (sc_DHPath config)
                            (sc_AAD config) (Some s) in
            buildSinks_from (sinks ++ [config]) rest
        end
      else
        ret (err (errorString ("Unknown sink type " ++ Quote env (s_Type sc))))
  end.

Definition buildSinks (ss : list Sink) : M (result (list SinkConfig)) :=
  buildSinks_from [] ss.

(** The [switch config.Type] of [buildMethod]. *)
Definition methodKind (type : string) : option MethodKind :=
  if String.eqb type "alicloud" then Some alicloud
  else if String.eqb type "aws" then Some aws
  else if String.eqb type "azure" then Some azure
  else if String.eqb type "gcp" then Some gcp
  else if String.eqb type "jwt" then Some jwt
  else if String.eqb type "kubernetes" then Some kubernetes
  else if String.eqb type "approle" then Some approle
  else None.

(** ** [buildMethod] (lines 262-295) *)
Definition buildMethod (config : Method) : M (result AuthMethod) :=
  authConfig <- withLogger (fun l =>
                  ret (mkAuthConfig (Named l ("auth." ++ m_Type config))
                         (m_MountPath config) (m_Config config))) ;;
  match methodKind (m_Type config) with
  | None =>
      ret (err (errorString ("Unknown auth method " ++ Quote env (m_Type config))))
  | Some k =>
      r <- call (NewAuthMethod env k authConfig) (fun _ => EvNewAuthMethod k) ;;
      match r with
      | err e =>
          ret (err (errorString ("Error creating " ++ m_Type config
                                 ++ " auth method: " ++ Error e)))
      | ok method => ret (ok (mkAuthMethod k method))
      end
  end.

(** ** [Get], lines 163-195: from the cleared token to the two [go]
    statements *)
Definition Get_startLogin (autoAuth : AutoAuth) (secret : string) : M Handshake :=
  clearToken ;;
  sinks <- buildSinks (aa_Sinks autoAuth) ;;
  sinks <- match sinks with
           | err e => log ErrorLevel "Error building sinks" ;; notFound
           | ok sinks => ret sinks
           end ;;
  method <- buildMethod (aa_Method autoAuth) ;;
  method <- match method with
            | err e => log ErrorLevel "Error building method" ;; notFound
            | ok method => ret method
            end ;;
  ss <- withLogger (fun l => withClient (fun c =>
          ret (mkSinkServerConfig (Named l "sink.server") (c_id c) true))) ;;
  ah <- withLogger (fun l => withClient (fun c =>
          ret (mkAuthHandlerConfig (Named l "auth.handler") (c_id c)
                 (m_WrapTTL (aa_Method autoAuth))))) ;;
  emit (EvGoAuthHandler (am_kind method)) ;;
  emit (EvGoSinkServer (List.length sinks)) ;;
  withLogger (fun l => withClient (fun c =>
    ret (mkHandshake secret l c method sinks ss ah defaultTimeout))).

(** ** [Get], lines 72-148: everything before the cached tokens are used *)
Definition Get_prepare : M (AutoAuth * string * list string) :=
  Get_logger ;;
  '(autoAuth, secret) <- Get_config ;;
  Get_client ;;
  cachedTokens <- Get_cachedTokens autoAuth ;;
  Get_renew cachedTokens ;;
  ret (autoAuth, secret, cachedTokens).

(** ** [Get], lines 71-195, as one body *)
Definition Get_body (serverURL : string) : M Handshake :=
  '(autoAuth, secret, cachedTokens) <- Get_prepare ;;
  Get_useTokens secret cachedTokens ;;
  Get_startLogin autoAuth secret.

(** What the environment answers when each of [tokens] in turn is made the
    token of client [c] and exchanged for the secret, from world [w] on. *)
Fixpoint exchangeEach (secret : string) (c : Client) (tokens : list string)
  (w : World env) : World env * list (result Credentials) :=
  match tokens with
  | [] => (w, [])
  | token :: rest =>
      let (w1, r) := GetCredentials env secret (SetToken token c) w in
      let (w2, rs) := exchangeEach secret c rest w1 in
      (w2, r :: rs)
  end.

(** The deferred calls of [Get] run when it returns or panics, the last
    deferred first. *)
Definition runDeferred (st : St) : St :=
  mkSt (world st) (self st) (events st ++ map EvClose (deferred st)) [].

(** [func (h *Helper) Get(serverURL string) (string, string, error)], up
    to its first [select]. *)
Definition Get (serverURL : string) (st : St) : St * Outcome :=
  match Get_body serverURL st with
  | (st', Next hs) => (st', Spawns hs)
  | (st', Return u p e) => (runDeferred st', Returns u p e)
  | (st', Panic) => (runDeferred st', Panics)
  end.

(** The state in which a call on helper [h] starts in world [w]. *)
Definition start (h : Helper) (w : World env) : St := mkSt w h [] [].

(** The exchange attempts among some events, as the client's token at
    each attempt, in order. *)
Fixpoint exchanges (evs : list event) : list string :=
  match evs with
  | [] => []
  | EvGetCredentials _ token :: evs' => token :: exchanges evs'
  | _ :: evs' => exchanges evs'
  end.

(** Whether a login has been started among some events. *)
Fixpoint loginStarted (evs : list event) : bool :=
  match evs with
  | [] => false
  | EvGoAuthHandler _ :: _ => true
  | _ :: evs' => loginStarted evs'
  end.

End Sequential.

Arguments mkSt {env} world self events deferred.
Arguments world {env} s.
Arguments self {env} s.
Arguments events {env} s.
Arguments deferred {env} s.
Arguments ret {env A} a st.
Arguments bind {env A B} m k st.
Arguments returns {env A} u p e st.
Arguments notFound {env A} st.
Arguments emit {env} e st.
Arguments call {env A} op ev st.
Arguments defer {env} w st.
Arguments setLogger {env} l st.
Arguments setClient {env} c st.
Arguments withLogger {env A} k st.
Arguments log {env} lvl msg st.
Arguments withClient {env A} k st.
Arguments ifErr {env} e body.
Arguments runDeferred {env} st.
Arguments setToken {env} token st.
Arguments clearToken {env} st.

(** What a claim about the exchanges and the login looks at in a list of
    events. *)
Definition footprint (evs : list event) : list string * bool :=
  (exchanges evs, loginStarted evs).

(** A statement is steady when it makes no exchange attempt, starts no
    login, and takes neither the logger nor the client away from the
    helper. *)
Definition steady {env : Env} {A : Type} (m : M env A) : Prop :=
  forall st st' r,
    m st = (st', r) ->
    footprint (events st') = footprint (events st)
    /\ (logger (self st) <> None -> logger (self st') <> None)
    /\ (client (self st) <> None -> client (self st') <> None).

(** The outcome contract of the credential-store protocol: a nil error,
    or the single "credentials not found" error with empty strings. *)
Definition contract (u p : string) (e : option error) : Prop :=
  e = None \/ (u, p, e) = ("", "", Some errCredentialsNotFound).

(** A statement is polite when, run with a logger (and with a client if
    it [needs_client]), it does not panic, returns from [Get] only within
    the contract, and leaves the logger and the client in place when it
    falls through. *)
Definition polite {env : Env} {A : Type} (needs_client : bool) (m : M env A)
  : Prop :=
  forall st st' r,
    m st = (st', r) ->
    logger (self st) <> None ->
    (needs_client = true -> client (self st) <> None) ->
    match r with
    | Next _ =>
        logger (self st') <> None
        /\ (client (self st) <> None -> client (self st') <> None)
    | Return u p e => contract u p e
    | Panic => False
    end.

(** The events that are neither an exchange nor the start of a login. *)
Definition quiet (e : event) : bool :=
  match e with
  | EvGetCredentials _ _ => false
  | EvGoAuthHandler _ => false
  | _ => true
  end.

(* ================================================================== *)
(** * [helper/command.go]: the handshake of [Get], lines 197-232 *)
(* ================================================================== *)

(** Modelled from the spec: the Login Task (the agent's auth handler,
    [ah.Run]) is not part of the repository.  It runs the login method
    once, writes the token it got onto its output channel, and closes its
    completion channel [ah.DoneCh] when it ends, however it ends. *)
Inductive AuthTask :=
| AuthRunning
| AuthProduced
| AuthDone.

(** Modelled from the spec: the Sink-Write Task (the agent's sink server,
    [ss.Run]) is not part of the repository.  It takes one token from its
    input channel, writes it to every sink, and closes its completion
    channel [ss.DoneCh] when it ends, however it ends; [persisted] is the
    token it has written to every sink, if it has. *)
Inductive SinkTask :=
| SinkWaiting
| SinkWriting (token : string)
| SinkDone (persisted : option string).

(** Modelled from the spec: a task ends early on an error of its own or
    because the shared context was cancelled. *)
Inductive ExitReason :=
| ExitError
| ExitCancelled.

Definition canExit (why : ExitReason) (ctx_done : bool) : bool :=
  match why with
  | ExitError => true
  | ExitCancelled => ctx_done
  end.

Inductive Which := First | Second.

(** The program points of [Get] from its first [select] on. *)
Inductive PC :=
| pc_select1                                  (* 198: entering the select *)
| pc_select1_parked                           (* 198: blocked in the select *)
| pc_got_token (token : string)               (* 204-206 *)
| pc_send (token : string)                    (* 209 *)
| pc_select2 (token : string) (parked : bool) (* 211 *)
| pc_sink_done (token : string)               (* 217-218 *)
| pc_cancel (token : string)                  (* 221 *)
| pc_wait_auth (token : string)               (* 222 *)
| pc_set_token (token : string)               (* 224 *)
| pc_get_creds                                (* 227 *)
| pc_read_error                               (* 229 *)
| pc_timeout (n : Which)                      (* 200, 213 *)
| pc_timeout_wait_auth                        (* 201, 214 *)
| pc_timeout_wait_sink                        (* 202, 215 *)
| pc_return (u p : string) (e : option error) (* 203, 216, 230, 232 *)
| pc_returned (u p : string) (e : option error).

(** The state of the handshake: where [Get] is, whether [ctx.Done()] is
    closed, the two tasks, the token waiting on [ah.OutputCh], and the
    token of [h.client]. *)
Record HState := mkHState {
  pc : PC;
  ctx_done : bool;
  auth : AuthTask;
  outputCh : option string;
  sink : SinkTask;
  active : string
}.

Inductive label :=
(* the environment: the timer of the context and the two tasks *)
| LDeadline
| LAuthOutput (token : string)
| LAuthExit (why : ExitReason)
| LSinkPersist (token : string)
| LSinkExit (why : ExitReason)
(* the send of line 209 meeting the sink server's receive *)
| LHandoff (token : string)
(* Get *)
| OLog (lvl : Level) (msg : string)
| ORecvAuthDone
| ORecvSinkDone
| OPark
| OSelectCtxDone
| OSelectOutput (token : string)
| OSelectSinkDone
| OCancel
| OSetToken (token : string)
| OGetCredentials (secret token : string) (r : result Credentials)
| OReturn (u p : string) (e : option error).

(** A goroutine that enters a [select] with a channel ready takes one of
    the ready cases, any of them; with none ready it blocks ([parked]),
    and then goes on with the case of the first channel that becomes
    ready: closing [ctx.Done()], a token on [ah.OutputCh] or closing
    [ss.DoneCh] moves a blocked [Get] into that case. *)
Definition on_ctx_done (p : PC) : PC :=
  match p with
  | pc_select1_parked => pc_timeout First
  | pc_select2 _ true => pc_timeout Second
  | _ => p
  end.

Definition on_sink_done (p : PC) : PC :=
  match p with
  | pc_select2 token true => pc_sink_done token
  | _ => p
  end.

Definition is_done (t : SinkTask) : bool :=
  match t with
  | SinkDone _ => true
  | _ => false
  end.

Definition timeout_msg (n : Which) : string :=
  match n with
  | First => "Failed to get credentials within timeout (" ++ defaultTimeout_String ++ ")"
  | Second => "Failed to write token to sink(s) within the timeout ("
              ++ defaultTimeout_String ++ ")"
  end.

Definition on_output (token : string) (p : PC) : PC :=
  match p with
  | pc_select1_parked => pc_got_token token
  | _ => p
  end.

Definition queue_output (token : string) (p : PC) (out : option string)
  : option string :=
  match p with
  | pc_select1_parked => out
  | _ => Some token
  end.

(** One step of the handshake: of the environment, or of [Get]. *)
Inductive step (secret : string) : HState -> label -> HState -> Prop :=
(* the deadline of [ctx] passes *)
| step_deadline p au out sk tok :
    step secret (mkHState p false au out sk tok) LDeadline
      (mkHState (on_ctx_done p) true au out sk tok)
(* the Login Task writes its token to [ah.OutputCh] *)
| step_auth_output p c out sk tok token :
    step secret (mkHState p c AuthRunning out sk tok) (LAuthOutput token)
      (mkHState (on_output token p) c AuthProduced (queue_output token p out) sk tok)
(* the Login Task ends and closes [ah.DoneCh] *)
| step_auth_exit p c au out sk tok why :
    au <> AuthDone -> canExit why c = true ->
    step secret (mkHState p c au out sk tok) (LAuthExit why)
      (mkHState p c AuthDone out sk tok)
(* 209: [newTokenCh <- token], received by the Sink-Write Task *)
| step_handoff c au out tok token :
    step secret (mkHState (pc_send token) c au out SinkWaiting tok) (LHandoff token)
      (mkHState (pc_select2 token false) c au out (SinkWriting token) tok)
(* the Sink-Write Task has written every sink, ends and closes [ss.DoneCh] *)
| step_sink_persist p c au out tok token :
    step secret (mkHState p c au out (SinkWriting token) tok) (LSinkPersist token)
      (mkHState (on_sink_done p) c au out (SinkDone (Some token)) tok)
(* the Sink-Write Task ends early and closes [ss.DoneCh] *)
| step_sink_exit p c au out sk tok why :
    is_done sk = false -> canExit why c = true ->
    step secret (mkHState p c au out sk tok) (LSinkExit why)
      (mkHState (on_sink_done p) c au out (SinkDone None) tok)
(* 198-199: the first select is entered with [ctx.Done()] closed *)
| step_select1_ctx au out sk tok :
    step secret (mkHState pc_select1 true au out sk tok) OSelectCtxDone
      (mkHState (pc_timeout First) true au out sk tok)
(* 198, 204: the first select is entered with a token on [ah.OutputCh] *)
| step_select1_output c au sk tok token :
    step secret (mkHState pc_select1 c au (Some token) sk tok)
      (OSelectOutput token)
      (mkHState (pc_got_token token) c au None sk tok)
(* 198: the first select is entered with neither channel ready *)
| step_select1_park au sk tok :
    step secret (mkHState pc_select1 false au None sk tok) OPark
      (mkHState pc_select1_parked false au None sk tok)
(* 206 *)
| step_got_token c au out sk tok token :
    step secret (mkHState (pc_got_token token) c au out sk tok)
      (OLog Info "Successfully authenticated")
      (mkHState (pc_send token) c au out sk tok)
(* 211-212: the select is entered with [ctx.Done()] closed *)
| step_select2_ctx au out sk tok token :
    step secret (mkHState (pc_select2 token false) true au out sk tok) OSelectCtxDone
      (mkHState (pc_timeout Second) true au out sk tok)
(* 211, 217: the select is entered with [ss.DoneCh] closed *)
| step_select2_sink c au out persisted tok token :
    step secret (mkHState (pc_select2 token false) c au out (SinkDone persisted) tok)
      OSelectSinkDone
      (mkHState (pc_sink_done token) c au out (SinkDone persisted) tok)
(* 211: the select is entered with neither channel ready *)
| step_select2_park au out sk tok token :
    is_done sk = false ->
    step secret (mkHState (pc_select2 token false) false au out sk tok) OPark
      (mkHState (pc_select2 token true) false au out sk tok)
(* 200, 213 *)
| step_timeout c au out sk tok n :
    step secret (mkHState (pc_timeout n) c au out sk tok)
      (OLog ErrorLevel (timeout_msg n))
      (mkHState pc_timeout_wait_auth c au out sk tok)
(* 201, 214: [<-ah.DoneCh] *)
| step_timeout_auth c out sk tok :
    step secret (mkHState pc_timeout_wait_auth c AuthDone out sk tok) ORecvAuthDone
      (mkHState pc_timeout_wait_sink c AuthDone out sk tok)
(* 202-203, 215-216: [<-ss.DoneCh] *)
| step_timeout_sink c au out persisted tok :
    step secret (mkHState pc_timeout_wait_sink c au out (SinkDone persisted) tok)
      ORecvSinkDone
      (mkHState (pc_return "" "" (Some errCredentialsNotFound)) c au out
         (SinkDone persisted) tok)
(* 218 *)
| step_sink_done c au out sk tok token :
    step secret (mkHState (pc_sink_done token) c au out sk tok)
      (OLog Info "Successfully wrote token to sink(s)")
      (mkHState (pc_cancel token) c au out sk tok)
(* 221: [cancel()] *)
| step_cancel c au out sk tok token :
    step secret (mkHState (pc_cancel token) c au out sk tok) OCancel
      (mkHState (pc_wait_auth token) true au out sk tok)
(* 222: [<-ah.DoneCh] *)
| step_wait_auth c out sk tok token :
    step secret (mkHState (pc_wait_auth token) c AuthDone out sk tok) ORecvAuthDone
      (mkHState (pc_set_token token) c AuthDone out sk tok)
(* 224: [h.client.SetToken(token)] *)
| step_set_token c au out sk tok token :
    step secret (mkHState (pc_set_token token) c au out sk tok) (OSetToken token)
      (mkHState pc_get_creds c au out sk token)
(* 227, 232: [vault.GetCredentials(secret, h.client)] succeeds *)
| step_get_creds_ok c au out sk tok creds :
    step secret (mkHState pc_get_creds c au out sk tok)
      (OGetCredentials secret tok (ok creds))
      (mkHState (pc_return (Username creds) (Password creds) None) c au out sk tok)
(* 227-228: it fails *)
| step_get_creds_err c au out sk tok e :
    step secret (mkHState pc_get_creds c au out sk tok)
      (OGetCredentials secret tok (err e))
      (mkHState pc_read_error c au out sk tok)
(* 229-230 *)
| step_read_error c au out sk tok :
    step secret (mkHState pc_read_error c au out sk tok)
      (OLog ErrorLevel "Error reading secret from Vault")
      (mkHState (pc_return "" "" (Some errCredentialsNotFound)) c au out sk tok)
(* a return statement: the deferred calls run and [Get] hands back *)
| step_return c au out sk tok u p e :
    step secret (mkHState (pc_return u p e) c au out sk tok) (OReturn u p e)
      (mkHState (pc_returned u p e) c au out sk tok).

(** Executions: finite sequences of steps. *)
Inductive exec (secret : string) : HState -> list label -> HState -> Prop :=
| exec_nil s : exec secret s [] s
| exec_cons s l s' tr s'' :
    step secret s l s' -> exec secret s' tr s'' -> exec secret s (l :: tr) s''.

(** A state in which nothing can happen any more. *)
Definition terminal (secret : string) (s : HState) : Prop :=
  forall l s', ~ step secret s l s'.

(** The state in which the two [go] statements leave the handshake: [Get]
    about to enter its first [select], the context live, both tasks
    started. *)
Definition initial (hs : Handshake) : HState :=
  mkHState pc_select1 false AuthRunning None SinkWaiting (c_token (hs_client hs)).

(** The labels that are actions of [Get] itself. *)
Definition of_Get (l : label) : bool :=
  match l with
  | LDeadline | LAuthOutput _ | LAuthExit _ | LSinkPersist _ | LSinkExit _ => false
  | _ => true
  end.

(** The exchange attempts in a trace of the handshake. *)
Fixpoint exchanged (tr : list label) : list string :=
  match tr with
  | [] => []
  | OGetCredentials _ token _ :: tr' => token :: exchanged tr'
  | _ :: tr' => exchanged tr'
  end.

(** What [Get] does when a [select] ends on [ctx.Done()] (lines 200-203
    and 213-216), and what it does after [ss.DoneCh] (lines 218-232) up to
    the exchange. *)
Definition notFoundReturn : label := OReturn "" "" (Some errCredentialsNotFound).

Definition timeout_actions (n : Which) : list label :=
  [OLog ErrorLevel (timeout_msg n); ORecvAuthDone; ORecvSinkDone; notFoundReturn].


(** What [Get] returns after the exchange of line 227. *)
Definition outcome_of (r : result Credentials) : string * string * option error :=
  match r with
  | ok creds => (Username creds, Password creds, None)
  | err _ => ("", "", Some errCredentialsNotFound)
  end.


(** Where [Get] is once a [select] has ended on [ctx.Done()], with the
    actions [acts] it has done since: it logs, waits for the completion
    signal of each task in turn, and returns "credentials not found". *)
Definition timed_out (n : Which) (s : HState) (acts : list label) : Prop :=
  ctx_done s = true
  /\ match pc s with
     | pc_timeout m => m = n /\ acts = []
     | pc_timeout_wait_auth => acts = firstn 1 (timeout_actions n)
     | pc_timeout_wait_sink =>
         acts = firstn 2 (timeout_actions n) /\ auth s = AuthDone
     | pc_return u p e =>
         acts = firstn 3 (timeout_actions n)
         /\ auth s = AuthDone /\ is_done (sink s) = true
         /\ (u, p, e) = ("", "", Some errCredentialsNotFound)
     | pc_returned u p e =>
         acts = timeout_actions n
         /\ auth s = AuthDone /\ is_done (sink s) = true
         /\ (u, p, e) = ("", "", Some errCredentialsNotFound)
     | _ => False
     end.


(** The actions of [Get] in a trace. *)
Definition actions (tr : list label) : list label := filter of_Get tr.

(** [Get] is blocked in a [select] only while none of its channels is
    ready. *)
Definition parked_ok (s : HState) : Prop :=
  match pc s with
  | pc_select1_parked => ctx_done s = false
  | pc_select2 _ true => ctx_done s = false /\ is_done (sink s) = false
  | _ => True
  end.

(** A run in which [Get] waits in its first [select], the login gives its
    token, the deadline passes before [Get] gets to the send of line 209,
    and the Sink-Write Task ends on the cancelled context: nobody is left
    to receive what [Get] sends. *)
Definition blocking_trace (token : string) : list label :=
  [OPark; LAuthOutput token; OLog Info "Successfully authenticated"; LDeadline;
   LSinkExit ExitCancelled; LAuthExit ExitCancelled].

(** A run in which the token is handed over, the deadline passes before
    [Get] gets to its second [select], and the Sink-Write Task ends on the
    cancelled context without having written the token: [Get] finds both
    channels ready, takes [ss.DoneCh], and reads the secret. *)
Definition unpersisted_trace (secret token : string) (creds : Credentials)
  : list label :=
  [OPark; LAuthOutput token; OLog Info "Successfully authenticated";
   LHandoff token; LDeadline; LSinkExit ExitCancelled; OSelectSinkDone;
   OLog Info "Successfully wrote token to sink(s)"; OCancel;
   LAuthExit ExitCancelled; ORecvAuthDone; OSetToken token;
   OGetCredentials secret token (ok creds);
   OReturn (Username creds) (Password creds) None].

(** Where [Get] is while the deadline has not passed and the Login Task
    has written no token, with the actions [acts] it has done: about to
    enter its first [select], or blocked in it. *)
Definition waiting (s : HState) (acts : list label) : Prop :=
  (pc s = pc_select1 /\ outputCh s = None /\ acts = [])
  \/ (pc s = pc_select1_parked /\ acts = [OPark]).

(** [Get] has not entered its first [select] yet, the deadline has passed
    and no token is there. *)
Definition pending (s : HState) : Prop :=
  pc s = pc_select1 /\ ctx_done s = true /\ outputCh s = None.

(** How [Get] gets into its first [select] when that ends on the
    deadline: it blocks in it, or it finds the deadline passed. *)
Definition entry (l : label) : Prop := l = OPark \/ l = OSelectCtxDone.

(** A run in which the deadline passes and the Login Task then writes its
    token, both before [Get] enters its first [select]: [Get] finds both
    channels ready, takes the token, and reads the secret with it. *)
Definition late_token_trace (secret token : string) (creds : Credentials)
  : list label :=
  [LDeadline; LAuthOutput token; OSelectOutput token;
   OLog Info "Successfully authenticated"; LHandoff token; LSinkPersist token;
   OSelectSinkDone; OLog Info "Successfully wrote token to sink(s)"; OCancel;
   LAuthExit ExitCancelled; ORecvAuthDone; OSetToken token;
   OGetCredentials secret token (ok creds);
   OReturn (Username creds) (Password creds) None].


(** Whatever [Get] returns from the handshake is within the contract. *)
Definition returns_in_contract (s : HState) : Prop :=
  match pc s with
  | pc_return u p e => contract u p e
  | pc_returned u p e => contract u p e
  | _ => True
  end.

(** ** A bound on what is left to happen

    Every step uses up one unit of [fuel]: the timer fires once, each task
    moves forward only, and [Get] has no loop after its [go] statements.
    The send of line 209 is a step of [Get] and of the Sink-Write Task at
    once, and is counted with the task. *)
Definition fuel_pc (p : PC) : nat :=
  match p with
  | pc_select1 => 12
  | pc_select1_parked => 11
  | pc_got_token _ => 10
  | pc_send _ => 9
  | pc_select2 _ false => 9
  | pc_select2 _ true => 8
  | pc_sink_done _ => 7
  | pc_cancel _ => 6
  | pc_wait_auth _ => 5
  | pc_set_token _ => 4
  | pc_get_creds => 3
  | pc_read_error => 2
  | pc_timeout _ => 4
  | pc_timeout_wait_auth => 3
  | pc_timeout_wait_sink => 2
  | pc_return _ _ _ => 1
  | pc_returned _ _ _ => 0
  end.

Definition fuel_auth (a : AuthTask) : nat :=
  match a with
  | AuthRunning => 2
  | AuthProduced => 1
  | AuthDone => 0
  end.

Definition fuel_sink (t : SinkTask) : nat :=
  match t with
  | SinkWaiting => 2
  | SinkWriting _ => 1
  | SinkDone _ => 0
  end.

Definition fuel (s : HState) : nat :=
  (fuel_pc (pc s) + (if ctx_done s then 0 else 1)
   + fuel_auth (auth s) + fuel_sink (sink s))%nat.

(** ** What a call of [Get] can do, seen by its caller *)
Inductive Behaviour :=
| BReturns (username password : string) (e : option error)
| BPanics
| BBlocks.

Inductive Get_behaves (env : Env) (serverURL : string) (st : St env)
  : Behaviour -> Prop :=
| behaves_returns st' u p e :
    Get env serverURL st = (st', Returns u p e) ->
    Get_behaves env serverURL st (BReturns u p e)
| behaves_panics st' :
    Get env serverURL st = (st', Panics) ->
    Get_behaves env serverURL st BPanics
| behaves_handshake_returns st' hs tr s u p e :
    Get env serverURL st = (st', Spawns hs) ->
    exec (hs_secret hs) (initial hs) tr s ->
    pc s = pc_returned u p e ->
    Get_behaves env serverURL st (BReturns u p e)
| behaves_handshake_blocks st' hs tr s :
    Get env serverURL st = (st', Spawns hs) ->
    exec (hs_secret hs) (initial hs) tr s ->
    terminal (hs_secret hs) s ->
    (forall u p e, pc s <> pc_returned u p e) ->
    Get_behaves env serverURL st BBlocks.

(** ** An environment to run the code in

    One file sink, the approle method, the secret at [secret/docker]; the
    log file opens when [logs] is set, the sinks hold [tokens], the secret
    can be read with the token [valid] only, and the file sink can be made
    when [sinkOK] is set. *)
Definition exampleConfig : Config :=
  mkConfig (Some (mkAutoAuth
    (mkMethod "approle" "auth/approle" 0 [("secret", anyString "secret/docker")])
    [mkSink "file" 0 "" "" "" [("path", anyString "/tmp/token")]])).

Definition exampleCredentials : Credentials :=
  mkCredentials "registry.example.com" "docker" "hunter2".

Definition exampleEnv (logs : bool) (tokens : list string) (valid : string)
  (sinkOK : bool) : Env :=
  mkEnv unit
    (fun w => (w, if logs then ok 3%Z else err (errorString "permission denied")))
    (fun _ _ => "")
    (fun _ _ w => (w, (Some exampleConfig, None)))
    (fun w => (w, ok (mkClient 1%Z "")))
    (fun c w => (w, ok c))
    (fun _ _ w => (w, (tokens, None)))
    (fun _ _ _ w => (w, None))
    (fun _ c w => (w, if String.eqb (c_token c) valid then ok exampleCredentials
                      else err (errorString "permission denied")))
    (fun _ w => (w, if sinkOK then ok 7%Z else err (errorString "no path")))
    (fun _ _ w => (w, ok 9%Z))
    exampleQuote.

(** The handshake that the example environment leads to, and a run of it
    in which the login does not come back before the deadline. *)
Definition exampleHandshake : Handshake :=
  let l := mkLogger "helper.get" ErrorLevel (Writer 3) in
  mkHandshake "secret/docker" l (mkClient 1 "") (mkAuthMethod approle 9) []
    (mkSinkServerConfig (Named l "sink.server") 1 true)
    (mkAuthHandlerConfig (Named l "auth.handler") 1 0) defaultTimeout.

Definition timeout_trace : list label :=
  [OLog ErrorLevel (timeout_msg First); LAuthExit ExitCancelled; ORecvAuthDone;
   LSinkExit ExitCancelled; ORecvSinkDone; notFoundReturn].


(* ================================================================== *)
(** * What else the events and the handshake are looked at for *)
(* ================================================================== *)

(** The renewal attempts among some events, by token, in order. *)
Fixpoint renewals (evs : list event) : list string :=
  match evs with
  | [] => []
  | EvRenew token :: evs' => token :: renewals evs'
  | _ :: evs' => renewals evs'
  end.

(** How many file sinks were made among some events. *)
Fixpoint sinksMade (evs : list event) : nat :=
  match evs with
  | [] => O
  | EvNewFileSink :: evs' => S (sinksMade evs')
  | _ :: evs' => sinksMade evs'
  end.

(** The case labels of the [switch] of [buildMethod]. *)
Definition supportedMethods : list string :=
  ["alicloud"; "aws"; "azure"; "gcp"; "jwt"; "kubernetes"; "approle"].

(** What [buildSinks] copies from a configured sink into its
    [sink.SinkConfig]. *)
Definition sinkSettings (sc : Sink) : cfgmap * time.Duration * string * string * string :=
  (s_Config sc, s_WrapTTL sc, s_DHType sc, s_DHPath sc, s_AAD sc).

Definition sinkConfigSettings (c : SinkConfig)
  : cfgmap * time.Duration * string * string * string :=
  (sc_Config c, sc_WrapTTL c, sc_DHType c, sc_DHPath c, sc_AAD c).

(** The events other than the closing of a file. *)
Definition notClose (e : event) : bool :=
  match e with
  | EvClose _ => false
  | _ => true
  end.

(** A statement that leaves the deferred calls of [Get] as they are, and
    closes no file itself: it only adds events, none of them a close. *)
Definition keeps_open {env : Env} {A : Type} (m : M env A) : Prop :=
  forall st st' r, m st = (st', r) ->
    deferred st' = deferred st /\
    exists evs, events st' = (events st ++ evs)%list /\ forallb notClose evs = true.

(** Both tasks have ended and the context is cancelled. *)
Definition tasks_ended (s : HState) : Prop :=
  auth s = AuthDone /\ is_done (sink s) = true /\ ctx_done s = true.

(** What is known of the tasks at each program point after the second
    [select] has ended on [ss.DoneCh]. *)
Definition settled (s : HState) : Prop :=
  match pc s with
  | pc_sink_done _ => is_done (sink s) = true
  | pc_cancel _ => is_done (sink s) = true
  | pc_wait_auth _ => is_done (sink s) = true /\ ctx_done s = true
  | pc_set_token _ => tasks_ended s
  | pc_get_creds => tasks_ended s
  | pc_read_error => tasks_ended s
  | _ => True
  end.

(** The actions in which [Get] touches the client it shares with the two
    tasks. *)
Definition usesClient (l : label) : bool :=
  match l with
  | OSetToken _ => true
  | OGetCredentials _ _ _ => true
  | _ => false
  end.

(** The token [token] was written by the Login Task, and then handed to
    the Sink-Write Task, in the trace [tr]. *)
Definition written (token : string) (tr : list label) : Prop :=
  In (LAuthOutput token) tr.

Definition handed (token : string) (tr : list label) : Prop :=
  In (LAuthOutput token) tr /\ In (LHandoff token) tr.

(** Where the token that [Get] holds comes from, at each program point,
    given the trace [tr] so far; what was exchanged so far; and where
    what [Get] returns comes from. *)
Definition provenance (secret : string) (tr : list label) (s : HState) : Prop :=
  match pc s with
  | pc_select1 | pc_select1_parked =>
      exchanged tr = []
      /\ forall t, outputCh s = Some t -> written t tr
  | pc_got_token t => exchanged tr = [] /\ written t tr
  | pc_send t => exchanged tr = [] /\ written t tr
  | pc_select2 t _ => exchanged tr = [] /\ handed t tr
  | pc_sink_done t => exchanged tr = [] /\ handed t tr
  | pc_cancel t => exchanged tr = [] /\ handed t tr
  | pc_wait_auth t => exchanged tr = [] /\ handed t tr
  | pc_set_token t => exchanged tr = [] /\ handed t tr
  | pc_get_creds => exchanged tr = [] /\ handed (active s) tr
  | pc_read_error =>
      exists t e, exchanged tr = [t] /\ handed t tr
                  /\ In (OGetCredentials secret t (err e)) tr
  | pc_timeout _ => exchanged tr = []
  | pc_timeout_wait_auth => exchanged tr = []
  | pc_timeout_wait_sink => exchanged tr = []
  | pc_return u p e | pc_returned u p e =>
      (exchanged tr = [] /\ (u, p, e) = ("", "", Some errCredentialsNotFound))
      \/ (exists t r, exchanged tr = [t] /\ handed t tr
                      /\ In (OGetCredentials secret t r) tr
                      /\ (u, p, e) = outcome_of r)
  end.

(** A run in which the deadline finds [Get] blocked in its second
    [select], from the state in which it blocks there. *)
Definition exampleParked : HState :=
  mkHState (pc_select2 "s.fresh" true) false AuthProduced None
    (SinkWriting "s.fresh") "".

Definition sink_timeout_trace : list label :=
  [OLog ErrorLevel (timeout_msg Second); LAuthExit ExitCancelled; ORecvAuthDone;
   LSinkExit ExitCancelled; ORecvSinkDone; notFoundReturn].

(** Three configured sinks of which the second has a type that is not
    known. *)
Definition exampleSinks : list Sink :=
  [mkSink "file" 0 "" "" "" [("path", anyString "/tmp/token")];
   mkSink "s3" 0 "" "" "" [];
   mkSink "file" 0 "" "" "" [("path", anyString "/tmp/other")]].

(** A state with a logger and a client in the example environment. *)
Definition exampleReady (env : Env) (w : World env) : St env :=
  mkSt w (mkHelper (Some (mkLogger "helper.get" ErrorLevel Stderr))
            (Some (mkClient 1 "")))
       [] [].


(** The example environment again, with a configuration file that holds
    [config] and with [client] for what making a Vault client gives (the
    log file opens, the sinks hold no token). *)
Definition exampleEnvWithConfig (config : option Config) (e : option error)
  (client : result Client) : Env :=
  mkEnv unit
    (fun w => (w, ok 3%Z))
    (fun _ _ => "")
    (fun _ _ w => (w, (config, e)))
    (fun w => (w, client))
    (fun c w => (w, ok c))
    (fun _ _ w => (w, ([], None)))
    (fun _ _ _ w => (w, None))
    (fun _ c w => (w, err (errorString "permission denied")))
    (fun _ w => (w, ok 7%Z))
    (fun _ _ w => (w, ok 9%Z))
    exampleQuote.

(** A configuration whose method has no "secret". *)
Definition exampleConfigNoSecret : Config :=
  mkConfig (Some (mkAutoAuth (mkMethod "approle" "auth/approle" 0 []) [])).


End helper.

(* ================================================================== *)
(** * [aws/iam_auth.go]: the signed request of the IAM login *)
(* ================================================================== *)

Module aws.

Definition Host : string := "sts.amazonaws.com".
Definition Region : string := "us-east-1".
Definition Service : string := "sts".
Definition RequestMethod : string := "POST".
Definition RequestBody : string := "Action=GetCallerIdentity&Version=2011-06-15".

(** A [map[string]string], its keys in the order in which they were first
    set. *)
Definition StringMap := list (string * string).

(** [m[k]] read and [m[k] = v] *)
Fixpoint get (k : string) (m : StringMap) : option string :=
  match m with
  | [] => None
  | (k', v) :: m' => if String.eqb k k' then Some v else get k m'
  end.

Fixpoint set (k v : string) (m : StringMap) : StringMap :=
  match m with
  | [] => [(k, v)]
  | (k', v') :: m' =>
      if String.eqb k k' then (k, v) :: m' else (k', v') :: set k v m'
  end.

Record IAMAuthElements := mkIAMAuthElements {
  Method : string;
  URL : string;
  Body : string;
  Headers : StringMap
}.

(** [credentials.Value] of the AWS SDK, as far as it is read here. *)
Record Value := mkValue {
  AccessKeyID : string;
  SecretAccessKey : string
}.

(** [RequestParams] is declared in another file of the package; these
    are the fields that [GetIAMAuthElements] sets. *)
Record RequestParams := mkRequestParams {
  rp_Service : string;
  rp_Region : string;
  rp_Method : string;
  rp_URL : string;
  rp_Headers : StringMap;
  rp_Body : string;
  rp_AccessKeyID : string;
  rp_SecretKey : string
}.

(** What the package calls outside this file: the shared credentials
    file, the clock as [time.Now().UTC().Format(time.RFC3339)] gives it,
    and the signing function of the package.  The map in the parameters
    is the caller's own (a Go map is a reference), so the signing
    function also hands back what it has left in it. *)
Record Env := mkEnv {
  Retrieve : helper.result Value;
  Now_UTC_RFC3339 : string;
  makeAuthorizationHeader : RequestParams -> StringMap * helper.result string
}.

(** [s[:n]]: a run-time panic ([None]) when [n] is beyond the length. *)
Definition slice_to (s : string) (n : nat) : option string :=
  if Nat.leb n (String.length s) then Some (substring 0 n s) else None.

(** [strings.Replace(s, old, new, -1)]: every occurrence of [old] in [s],
    from the left and without overlap, gives way to [new]; an empty [old]
    matches before every byte and at the end (bytes for runes: the
    strings here are ASCII). *)
Fixpoint replace_from (skip : nat) (s old new : string) : string :=
  match s with
  | EmptyString => EmptyString
  | String c s' =>
      match skip with
      | S k => replace_from k s' old new
      | O =>
          if prefix old s
          then new ++ replace_from (String.length old - 1) s' old new
          else String c (replace_from 0 s' old new)
      end
  end.

Fixpoint between (s new : string) : string :=
  match s with
  | EmptyString => new
  | String c s' => new ++ String c (between s' new)
  end.

Definition Replace (s old new : string) : string :=
  match old with
  | EmptyString => between s new
  | _ => replace_from 0 s old new
  end.

(** [fmt.Sprintf("%d", n)] for a length *)
Definition Sprintf_d (n : nat) : string := NilZero.string_of_uint (Nat.to_uint n).

(** [func nowAsISO8601() string] *)
Definition nowAsISO8601 (env : Env) : option string :=
  match slice_to (Now_UTC_RFC3339 env) 19 with
  | None => None
  | Some s => Some (Replace (Replace (s ++ "Z") "-" "") ":" "")
  end.

(** [func makeSTSGetCallerIdentityRequestHeaders() map[string]string] *)
Definition makeSTSGetCallerIdentityRequestHeaders (env : Env) : option StringMap :=
  match nowAsISO8601 env with
  | None => None
  | Some now =>
      let h := [("Accept-Encoding", "identity");
                ("Content-Type", "application/x-www-form-urlencoded");
                ("Host", Host);
                ("X-Amz-Date", now)] in
      Some (set "Content-Length" (Sprintf_d (String.length RequestBody)) h)
  end.

(** [func GetIAMAuthElements()], which gives a pointer to the elements
    (nil is [None]) and an error; the outer [None] is the run-time panic
    of the slice in [nowAsISO8601]. *)
Definition GetIAMAuthElements (env : Env)
  : option (option IAMAuthElements * option helper.error) :=
  match Retrieve env with
  | helper.err e => Some (None, Some e)
  | helper.ok val =>
      match makeSTSGetCallerIdentityRequestHeaders env with
      | None => None
      | Some headers =>
          let url := "https://" ++ Host ++ "/" in
          let params := mkRequestParams Service Region RequestMethod url headers
                          RequestBody (AccessKeyID val) (SecretAccessKey val) in
          let (headers, r) := makeAuthorizationHeader env params in
          match r with
          | helper.err e => Some (None, Some e)
          | helper.ok auth =>
              let headers := set "Authorization" auth headers in
              Some (Some (mkIAMAuthElements RequestMethod url RequestBody headers),
                    None)
          end
      end
  end.

(** The decimal digits. *)
Definition isDigit (c : Ascii.ascii) : bool :=
  (Nat.leb 48 (Ascii.nat_of_ascii c) && Nat.leb (Ascii.nat_of_ascii c) 57)%bool.

Fixpoint digits (s : string) : bool :=
  match s with
  | EmptyString => true
  | String c s' => (isDigit c && digits s')%bool
  end.

(** A field of [n] decimal digits, and the six fields of an instant. *)
Definition isField (n : nat) (s : string) : bool :=
  (Nat.eqb (String.length s) n && digits s)%bool.

Definition isInstant (year month day hour minute second : string) : bool :=
  (isField 4 year && isField 2 month && isField 2 day
   && isField 2 hour && isField 2 minute && isField 2 second)%bool.


(** An instant as layout [time.RFC3339] writes it, with whatever it
    writes for the zone. *)
Definition rfc3339 (year month day hour minute second zone : string) : string :=
  year ++ "-" ++ month ++ "-" ++ day ++ "T" ++ hour ++ ":" ++ minute ++ ":"
  ++ second ++ zone.

(** The same instant in the basic format of ISO 8601, in UTC. *)
Definition iso8601_basic (year month day hour minute second : string) : string :=
  year ++ month ++ day ++ "T" ++ hour ++ minute ++ second ++ "Z".

(** The credentials file holds the key of a user, the clock stands at
    2018-11-08 21:41:07 UTC, and the signing function leaves the headers
    alone. *)
Definition exampleEnv : Env :=
  mkEnv (helper.ok (mkValue "AKIDEXAMPLE" "secret"))
    "2018-11-08T21:41:07Z"
    (fun params =>
       (rp_Headers params,
        helper.ok ("AWS4-HMAC-SHA256 Credential=" ++ rp_AccessKeyID params))).

End aws.

(* ================================================================== *)
(** * The cached token and its two clocks *)
(* ================================================================== *)

Section TokenClock.

Import cache.

Lemma grace_period_duration :
  time.mul time.Second (time.wrap64 (-1 * GracePeriodSeconds))
  = - (GracePeriodSeconds * time.Second).
Proof. reflexivity. Qed.

Lemma window_start_eq (t : CachedToken) :
  time.Add (time.Unix (Expiration t) 0)
    (time.mul time.Second (time.wrap64 (-1 * GracePeriodSeconds)))
  = windowStart t.
Proof.
  rewrite grace_period_duration. unfold time.Add, windowStart.
  generalize (time.Unix (Expiration t) 0). intros e.
  unfold GracePeriodSeconds, time.Second. lia.
Qed.

Lemma wrap64_small (z : Z) : - 2 ^ 63 <= z <= 2 ^ 63 - 1 -> time.wrap64 z = z.
Proof.
  intros H. unfold time.wrap64. rewrite Z.mod_small; lia.
Qed.

(** Where [time.Unix] does not wrap, it gives the instant that many
    seconds after the epoch. *)
Lemma Unix_inRange (sec : Z) : time.inRange sec -> time.Unix sec 0 = sec * time.Second.
Proof.
  intros H. unfold time.Unix. cbn [Z.ltb Z.leb Z.compare orb time.Second].
  rewrite (wrap64_small _ H). lia.
Qed.

(** C5, as the code has it: for a token whose expiration timestamp is one
    that [time.Unix] represents, [Expired] holds exactly when the
    evaluation time is strictly after the expiration timestamp; at the
    timestamp itself and before it the token is not expired. *)
Theorem Expired_iff_strictly_after (t : CachedToken) (now : time.Time) :
  time.inRange (Expiration t) ->
  (Expired t now = true <-> Expiration t * time.Second < now)
  /\ (Expired t now = false <-> now <= Expiration t * time.Second).
Proof.
  intros R. unfold Expired, time.After. rewrite (Unix_inRange _ R). split.
  - apply Z.ltb_lt.
  - apply Z.ltb_ge.
Qed.

(** C5 run one nanosecond after, and at, an expiration of 1000 s. *)
Lemma Expired_iff_strictly_after_witness :
  Expired (mkCachedToken "s.token" 1000 false "approle") (time.Unix 1000 1) = true
  /\ Expired (mkCachedToken "s.token" 1000 false "approle") (time.Unix 1000 0) = false.
Proof.
  split.
  - apply (proj1 (Expired_iff_strictly_after
                    (mkCachedToken "s.token" 1000 false "approle")
                    (time.Unix 1000 1) ltac:(vm_compute; split; discriminate))).
    vm_compute. reflexivity.
  - reflexivity.
Defined.

(** C5 as stated fails at the expiration timestamp itself: the evaluation
    time is at the expiration, and [Expired] is false. *)
Lemma Expired_at_expiration_false :
  let t := mkCachedToken "s.token" 1000 false "approle" in
  let now := time.Unix 1000 0 in
  ~ (Expired t now = true <-> time.Unix (Expiration t) 0 <= now).
Proof.
  cbv zeta. intros [_ H].
  assert (E : Expired (mkCachedToken "s.token" 1000 false "approle")
                (time.Unix 1000 0) = false) by reflexivity.
  rewrite H in E; [discriminate | vm_compute; discriminate].
Qed.

(** C6, as the code has it: a token is eligible for renewal exactly when
    it is renewable and the evaluation time lies strictly between the
    start of the grace period (600 s before the expiration) and the
    expiration; so never when it is not renewable, and never at or after
    the expiration. *)
Theorem EligibleForRenewal_iff_open_window (t : CachedToken) (now : time.Time) :
  (EligibleForRenewal t now = true <->
     Renewable t = true
     /\ time.Unix (Expiration t) 0 - 600 * time.Second < now
     /\ now < time.Unix (Expiration t) 0)
  /\ (Renewable t = false -> EligibleForRenewal t now = false)
  /\ (time.Unix (Expiration t) 0 <= now -> EligibleForRenewal t now = false).
Proof.
  unfold EligibleForRenewal. cbv zeta. rewrite window_start_eq.
  unfold windowStart, GracePeriodSeconds, time.Before, time.After.
  repeat split.
  - apply andb_prop in H. destruct H as [H _].
    apply andb_prop in H. tauto.
  - apply andb_prop in H. destruct H as [_ H]. apply Z.ltb_lt in H. exact H.
  - apply andb_prop in H. destruct H as [H _].
    apply andb_prop in H. destruct H as [_ H]. apply Z.ltb_lt in H. exact H.
  - intros (Hr & Hlo & Hhi). rewrite Hr.
    apply Z.ltb_lt in Hlo. apply Z.ltb_lt in Hhi. rewrite Hlo, Hhi. reflexivity.
  - intros Hr. rewrite Hr. reflexivity.
  - intros Hexp. apply Z.ltb_ge in Hexp. rewrite Hexp.
    rewrite andb_false_r. reflexivity.
Qed.

(** C6 as stated fails at the start of the window: 600 s before the
    expiration a renewable token is not eligible. *)
Lemma EligibleForRenewal_at_window_start_false :
  let t := mkCachedToken "s.token" 1000 true "approle" in
  let now := time.Unix 400 0 in
  ~ (EligibleForRenewal t now = true <->
       Renewable t = true
       /\ time.Unix (Expiration t) 0 - 600 * time.Second <= now
       /\ now < time.Unix (Expiration t) 0).
Proof.
  cbv zeta. intros [_ H].
  assert (E : EligibleForRenewal (mkCachedToken "s.token" 1000 true "approle")
                (time.Unix 400 0) = false) by reflexivity.
  rewrite H in E; [discriminate |].
  simpl. repeat split; first [reflexivity | vm_compute; discriminate].
Qed.

End TokenClock.

(* ================================================================== *)
(** * The helper: the operations that are not implemented *)
(* ================================================================== *)

Import helper.

Local Open Scope list_scope.

Section NotImplemented.

Variable env : Env.

(** C10: [Add] and [Delete] return the "not implemented" error, [List]
    returns the nil map with the same error, whatever their input; the
    state they run in is left as it was, and none of them returns a nil
    error. *)
Theorem Add_Delete_List_not_implemented
  (st : St env) (creds : Credentials) (serverURL : string) :
  Add env creds st = (st, Some notImplementedError)
  /\ Delete env serverURL st = (st, Some notImplementedError)
  /\ List env st = (st, (None, Some notImplementedError))
  /\ notImplementedError = errorString "not implemented"
  /\ snd (Add env creds st) <> None
  /\ snd (Delete env serverURL st) <> None
  /\ snd (snd (List env st)) <> None.
Proof.
  repeat split; discriminate.
Qed.

End NotImplemented.

(* ================================================================== *)
(** * The helper: the sequential part of [Get] *)
(* ================================================================== *)

Section GetSequential.

Variable env : Env.

Local Open Scope list_scope.

(** ** Running a sequence of statements *)

Lemma bind_Next {A B} (m : M env A) (k : A -> M env B) st st' a :
  m st = (st', Next a) -> bind m k st = k a st'.
Proof. unfold bind. intros ->. reflexivity. Qed.

Lemma bind_Return {A B} (m : M env A) (k : A -> M env B) st st' u p e :
  m st = (st', Return u p e) -> bind m k st = (st', Return u p e).
Proof. unfold bind. intros ->. reflexivity. Qed.

Lemma bind_Panic {A B} (m : M env A) (k : A -> M env B) st st' :
  m st = (st', Panic) -> bind m k st = (st', Panic).
Proof. unfold bind. intros ->. reflexivity. Qed.

Lemma exchanges_app (a b : list event) :
  exchanges (a ++ b) = exchanges a ++ exchanges b.
Proof.
  induction a as [|e a IH]; simpl; [reflexivity|].
  destruct e; simpl; rewrite ?IH; reflexivity.
Qed.

(** ** The nil logger *)

(** C7, where the code breaks it: on a helper that has no logger yet
    (as [NewHelper(nil)] makes it), if the log file cannot be opened, [Get]
    calls [Error] on the nil logger and panics. *)
Theorem Get_panics_when_log_file_fails (serverURL : string) (st : St env) (e : error) :
  logger (self st) = None ->
  snd (LogWriter env (world st)) = err e ->
  snd (Get env serverURL st) = Panics
  /\ Get_behaves env serverURL st BPanics.
Proof.
  intros Hl Hw.
  assert (E : snd (Get_logger env st) = Panic).
  { unfold Get_logger. rewrite Hl. unfold bind, call.
    destruct (LogWriter env (world st)) as [w r]. simpl in Hw. subst r.
    simpl. unfold log, withLogger. simpl. rewrite Hl. reflexivity. }
  assert (G : snd (Get env serverURL st) = Panics).
  { unfold Get, Get_body, Get_prepare.
    destruct (Get_logger env st) as [st1 r] eqn:E1. simpl in E. subst r.
    rewrite (bind_Panic _ _ _ st1).
    - reflexivity.
    - apply bind_Panic. exact E1. }
  split; [exact G|].
  destruct (Get env serverURL st) as [st' o] eqn:EG. simpl in G. subst o.
  eapply behaves_panics. exact EG.
Qed.

(** ** Statements that make no exchange and keep the logger and the client *)

Lemma loginStarted_app (a b : list event) :
  loginStarted (a ++ b) = loginStarted a || loginStarted b.
Proof.
  induction a as [|e a IH]; simpl; [reflexivity|].
  destruct e; simpl; rewrite ?IH; reflexivity.
Qed.

Lemma footprint_snoc (evs : list event) (e : event) :
  quiet e = true -> footprint (evs ++ [e]) = footprint evs.
Proof.
  intros H. unfold footprint. rewrite exchanges_app, loginStarted_app.
  destruct e; simpl in *; try discriminate;
    rewrite app_nil_r, orb_false_r; reflexivity.
Qed.

Lemma steady_ret {A} (a : A) : steady (@ret env A a).
Proof. intros st st' r H. inversion H; subst. tauto. Qed.

Lemma steady_returns {A} u p e : steady (@returns env A u p e).
Proof. intros st st' r H. inversion H; subst. tauto. Qed.

Lemma steady_notFound {A} : steady (@notFound env A).
Proof. apply steady_returns. Qed.

Lemma steady_bind {A B} (m : M env A) (k : A -> M env B) :
  steady m -> (forall a, steady (k a)) -> steady (bind m k).
Proof.
  intros Hm Hk st st' r H. unfold bind in H.
  destruct (m st) as [st0 [a|u p e|]] eqn:E; pose proof (Hm _ _ _ E) as (X & Y & Z).
  - destruct (Hk a _ _ _ H) as (X' & Y' & Z').
    split; [congruence|]. split; auto.
  - inversion H; subst. auto.
  - inversion H; subst. auto.
Qed.

Lemma steady_emit (e : event) : quiet e = true -> steady (@emit env e).
Proof.
  intros He st st' r H. inversion H; subst. simpl.
  split; [apply footprint_snoc; exact He | tauto].
Qed.

Lemma steady_call {A} (op : World env -> World env * A) (ev : A -> event) :
  (forall a, quiet (ev a) = true) -> steady (call op ev).
Proof.
  intros He st st' r H. unfold call in H.
  destruct (op (world st)) as [w a]. inversion H; subst. simpl.
  split; [apply footprint_snoc; apply He | tauto].
Qed.

Lemma steady_defer (w : handle) : steady (@defer env w).
Proof. intros st st' r H. inversion H; subst. simpl. tauto. Qed.

Lemma steady_setLogger (l : Logger) : steady (@setLogger env l).
Proof.
  intros st st' r H. inversion H; subst. simpl.
  split; [reflexivity|]. split; [discriminate | tauto].
Qed.

Lemma steady_setClient (c : Client) : steady (@setClient env c).
Proof.
  intros st st' r H. inversion H; subst. simpl.
  split; [reflexivity|]. split; [tauto | discriminate].
Qed.

Lemma steady_withLogger {A} (k : Logger -> M env A) :
  (forall l, steady (k l)) -> steady (withLogger k).
Proof.
  intros Hk st st' r H. unfold withLogger in H.
  destruct (logger (self st)) as [l|] eqn:E.
  - destruct (Hk l _ _ _ H) as (X & Y & Z). rewrite E in Y. auto.
  - inversion H; subst. rewrite E. tauto.
Qed.

Lemma steady_withClient {A} (k : Client -> M env A) :
  (forall c, steady (k c)) -> steady (withClient k).
Proof.
  intros Hk st st' r H. unfold withClient in H.
  destruct (client (self st)) as [c|] eqn:E.
  - destruct (Hk c _ _ _ H) as (X & Y & Z). rewrite E in Z. auto.
  - inversion H; subst. rewrite E. tauto.
Qed.

Lemma steady_log lvl msg : steady (@log env lvl msg).
Proof.
  apply steady_withLogger. intros l. apply steady_emit. reflexivity.
Qed.

Lemma steady_ifErr e (body : M env unit) : steady body -> steady (ifErr e body).
Proof. intros H. destruct e; simpl; [exact H | apply steady_ret]. Qed.

Ltac steady_step :=
  first
    [ apply steady_bind; [|intros ?]
    | apply steady_ret | apply steady_notFound | apply steady_returns
    | apply steady_log | apply steady_defer
    | apply steady_setLogger | apply steady_setClient
    | apply steady_ifErr
    | apply steady_withLogger; intros ?
    | apply steady_withClient; intros ?
    | apply steady_emit; reflexivity
    | apply steady_call; intros ?; reflexivity ].

Ltac steady_auto :=
  repeat (steady_step
          || match goal with
             | |- steady (match ?x with _ => _ end) => destruct x
             | |- steady (if ?x then _ else _) => destruct x
             | |- steady (let (_, _) := ?x in _) => destruct x
             end).

(** Use steadiness of the statement run in hypothesis [H]. *)
Ltac steady_at H :=
  match type of H with
  | ?m ?st = _ =>
      let S := fresh "S" in
      let X := fresh "X" in
      let Y := fresh "Y" in
      let Z := fresh "Z" in
      assert (S : steady m) by steady_auto;
      destruct (S _ _ _ H) as (X & Y & Z);
      split; [exact X|];
      split; intros ?; [apply Y | apply Z]; congruence
  end.

Lemma steady_Get_logger : steady (Get_logger env).
Proof.
  intros st st' r H. unfold Get_logger in H.
  destruct (logger (self st)) eqn:E; steady_at H.
Qed.

Lemma steady_Get_config : steady (Get_config env).
Proof.
  unfold Get_config.
  apply steady_bind; [steady_auto | intros f].
  apply steady_bind.
  - intros st st' r H. steady_at H.
  - intros [config e]. steady_auto.
Qed.

Lemma steady_Get_client : steady (Get_client env).
Proof.
  intros st st' r H. unfold Get_client in H.
  destruct (client (self st)) eqn:E; steady_at H.
Qed.

Lemma steady_Get_cachedTokens aa : steady (Get_cachedTokens env aa).
Proof. unfold Get_cachedTokens. steady_auto. Qed.

Lemma steady_Get_renew toks : steady (Get_renew env toks).
Proof. induction toks as [|t toks IH]; simpl; steady_auto. exact IH. Qed.


(** ** What [Get] has when it starts on the cached tokens *)

Lemma bind_inv_Next {A B} (m : M env A) (k : A -> M env B) st st' b :
  bind m k st = (st', Next b) ->
  exists st0 a, m st = (st0, Next a) /\ k a st0 = (st', Next b).
Proof.
  unfold bind. destruct (m st) as [st0 [a|u p e|]]; intros H;
    try discriminate. eauto.
Qed.

Lemma Get_logger_Next st st' a :
  Get_logger env st = (st', Next a) -> logger (self st') <> None.
Proof.
  unfold Get_logger. destruct (logger (self st)) eqn:E.
  - intros H. inversion H; subst. congruence.
  - intros H. apply bind_inv_Next in H. destruct H as (st0 & r & _ & H).
    apply bind_inv_Next in H. destruct H as (st1 & opts & _ & H).
    inversion H; subst. simpl. discriminate.
Qed.

Lemma Get_client_Next st st' a :
  Get_client env st = (st', Next a) -> client (self st') <> None.
Proof.
  unfold Get_client. destruct (client (self st)) eqn:E.
  - intros H. inversion H; subst. congruence.
  - intros H. apply bind_inv_Next in H. destruct H as (st0 & r & _ & H).
    destruct r as [c|e].
    + inversion H; subst. simpl. discriminate.
    + apply bind_inv_Next in H. destruct H as (st1 & x & _ & H). discriminate.
Qed.

Lemma Get_prepare_ready st st1 x :
  Get_prepare env st = (st1, Next x) ->
  logger (self st1) <> None
  /\ client (self st1) <> None
  /\ footprint (events st1) = footprint (events st).
Proof.
  unfold Get_prepare. intros H.
  apply bind_inv_Next in H. destruct H as (sa & [] & Ha & H).
  apply bind_inv_Next in H. destruct H as (sb & [aa secret] & Hb & H).
  apply bind_inv_Next in H. destruct H as (sc & [] & Hc & H).
  apply bind_inv_Next in H. destruct H as (sd & toks & Hd & H).
  apply bind_inv_Next in H. destruct H as (se & [] & He & H).
  inversion H; subst; clear H.
  pose proof (Get_logger_Next _ _ _ Ha) as La.
  pose proof (Get_client_Next _ _ _ Hc) as Cc.
  destruct (steady_Get_logger _ _ _ Ha) as (Xa & _ & _).
  destruct (steady_Get_config _ _ _ Hb) as (Xb & Lb & _).
  destruct (steady_Get_client _ _ _ Hc) as (Xc & Lc & _).
  destruct (steady_Get_cachedTokens _ _ _ _ Hd) as (Xd & Ld & Cd).
  destruct (steady_Get_renew _ _ _ _ He) as (Xe & Le & Ce).
  repeat split; auto. congruence.
Qed.

(** ** The loop over the cached tokens *)

Lemma SetToken_same_id (token : string) (c c' : Client) :
  c_id c = c_id c' -> SetToken token c = SetToken token c'.
Proof. unfold SetToken. intros ->. reflexivity. Qed.

Lemma exchangeEach_same_id secret (c c' : Client) tokens w :
  c_id c = c_id c' ->
  exchangeEach env secret c tokens w = exchangeEach env secret c' tokens w.
Proof.
  intros Hid. revert w. induction tokens as [|t ts IH]; intros w; simpl.
  - reflexivity.
  - rewrite (SetToken_same_id t c c' Hid).
    destruct (GetCredentials env secret (SetToken t c') w) as [w1 r].
    rewrite IH. reflexivity.
Qed.

(** One turn of the loop with a token the exchange fails for. *)
Lemma Get_useTokens_cons_err secret token rest st l c w1 e :
  logger (self st) = Some l ->
  client (self st) = Some c ->
  GetCredentials env secret (SetToken token c) (world st) = (w1, err e) ->
  Get_useTokens env secret (token :: rest) st
  = Get_useTokens env secret rest
      (mkSt w1 (mkHelper (Some l) (Some (SetToken token c)))
         (events st ++ [EvSetToken token; EvGetCredentials secret token;
                        EvLog (lg_Name l) ErrorLevel "Error reading secret from Vault"])
         (deferred st)).
Proof.
  intros Hl Hc Hg. destruct st as [w [lg cl] evs dfr]. simpl in *. subst lg cl.
  do 3 (unfold bind, setToken, withClient, setClient, emit, getCredentials,
          call, log, withLogger; simpl).
  rewrite Hg. simpl.
  rewrite <- !app_assoc. reflexivity.
Qed.

(** The last turn: a token the exchange succeeds for. *)
Lemma Get_useTokens_cons_ok secret token rest st c w1 creds :
  client (self st) = Some c ->
  GetCredentials env secret (SetToken token c) (world st) = (w1, ok creds) ->
  Get_useTokens env secret (token :: rest) st
  = (mkSt w1 (mkHelper (logger (self st)) (Some (SetToken token c)))
       (events st ++ [EvSetToken token; EvGetCredentials secret token])
       (deferred st),
     Return (Username creds) (Password creds) None).
Proof.
  intros Hc Hg. destruct st as [w [lg cl] evs dfr]. simpl in *. subst cl.
  do 3 (unfold bind, setToken, withClient, setClient, emit, getCredentials,
          call, returns; simpl).
  rewrite Hg. simpl.
  rewrite <- !app_assoc. reflexivity.
Qed.

(** Tokens the exchange fails for are passed over, one attempt each. *)
Lemma Get_useTokens_failures secret pre rest :
  forall st l c w1 outs,
    logger (self st) = Some l ->
    client (self st) = Some c ->
    exchangeEach env secret c pre (world st) = (w1, outs) ->
    forallb failed outs = true ->
    exists st',
      Get_useTokens env secret (pre ++ rest) st = Get_useTokens env secret rest st'
      /\ world st' = w1
      /\ logger (self st') = Some l
      /\ (exists c', client (self st') = Some c' /\ c_id c' = c_id c)
      /\ exchanges (events st') = exchanges (events st) ++ pre
      /\ loginStarted (events st') = loginStarted (events st)
      /\ deferred st' = deferred st.
Proof.
  induction pre as [|t pre IH]; intros st l c w1 outs Hl Hc He Hf.
  - simpl in He. inversion He; subst. exists st. simpl.
    rewrite app_nil_r. repeat split; eauto.
  - simpl in He.
    destruct (GetCredentials env secret (SetToken t c) (world st)) as [wa r] eqn:Eg.
    destruct (exchangeEach env secret c pre wa) as [wb rs] eqn:Ee.
    inversion He; subst; clear He. simpl in Hf.
    apply andb_prop in Hf. destruct Hf as [Hr Hrs].
    destruct r as [creds|e]; [discriminate|].
    rewrite <- app_comm_cons.
    rewrite (Get_useTokens_cons_err secret t (pre ++ rest) st l c wa e Hl Hc Eg).
    set (st1 := mkSt wa _ _ _).
    destruct (IH st1 l (SetToken t c) w1 rs)
      as (st' & E & W & L & (c' & C & I) & X & G & D);
      try reflexivity; try assumption.
    { simpl. rewrite (exchangeEach_same_id secret (SetToken t c) c); [exact Ee|reflexivity]. }
    exists st'. split; [exact E|]. split; [exact W|]. split; [exact L|].
    split; [exists c'; split; [exact C | rewrite I; reflexivity]|].
    split; [|split; [|exact D]].
    + rewrite X. subst st1. simpl. rewrite exchanges_app. simpl.
      rewrite <- app_assoc. reflexivity.
    + rewrite G. subst st1. simpl. rewrite loginStarted_app. simpl.
      apply orb_false_r.
Qed.


Lemma exchanges_close (ws : list handle) : exchanges (map EvClose ws) = [].
Proof. induction ws as [|w ws IH]; simpl; [reflexivity | exact IH]. Qed.

Lemma loginStarted_close (ws : list handle) :
  loginStarted (map EvClose ws) = false.
Proof. induction ws as [|w ws IH]; simpl; [reflexivity | exact IH]. Qed.

(** [Get] is a function of the state it starts in: what its sequential
    part returns is the only way the call can go. *)
Lemma Get_behaves_Returns serverURL st st' u p e b :
  Get env serverURL st = (st', Returns u p e) ->
  Get_behaves env serverURL st b -> b = BReturns u p e.
Proof.
  intros H B. inversion B; subst;
    match goal with
    | G : Get env serverURL st = _ |- _ => rewrite H in G; inversion G; subst
    end; reflexivity.
Qed.

(** C1: when the exchange fails for the first k-1 cached tokens ([pre])
    and succeeds for the k-th ([token]), [Get] makes exactly k exchange
    attempts, with the tokens [pre ++ [token]] in their order, and returns
    the username and password read with the k-th token and a nil error;
    the tokens after it ([post]) are never exchanged and no login is
    started, among the events of the call as in what the call can do. *)
Theorem Get_returns_first_valid_cached_token
  (serverURL : string) (st st1 : St env) (autoAuth : AutoAuth) (secret : string)
  (pre : list string) (token : string) (post : list string) (c : Client)
  (w1 w2 : World env) (outs : list (result Credentials)) (creds : Credentials) :
  Get_prepare env st = (st1, Next (autoAuth, secret, pre ++ token :: post)) ->
  client (self st1) = Some c ->
  exchangeEach env secret c pre (world st1) = (w1, outs) ->
  forallb failed outs = true ->
  GetCredentials env secret (SetToken token c) w1 = (w2, ok creds) ->
  exists st',
    Get env serverURL st = (st', Returns (Username creds) (Password creds) None)
    /\ exchanges (events st') = exchanges (events st) ++ pre ++ [token]
    /\ List.length (pre ++ [token]) = S (List.length pre)
    /\ loginStarted (events st') = loginStarted (events st)
    /\ (forall b, Get_behaves env serverURL st b ->
                  b = BReturns (Username creds) (Password creds) None).
Proof.
  intros Hp Hc He Hf Hg.
  destruct (Get_prepare_ready _ _ _ Hp) as (Hl & _ & Hx).
  unfold footprint in Hx. injection Hx as Hx Hy.
  destruct (logger (self st1)) as [l|] eqn:El; [clear Hl | congruence].
  destruct (Get_useTokens_failures secret pre (token :: post) st1 l c w1 outs
              El Hc He Hf)
    as (sa & E & W & L & (c' & C & I) & X & Y & D).
  assert (Hg' : GetCredentials env secret (SetToken token c') (world sa)
                = (w2, ok creds)).
  { rewrite W, (SetToken_same_id token c' c I). exact Hg. }
  pose proof (Get_useTokens_cons_ok secret token post sa c' w2 creds C Hg') as Hok.
  rewrite <- E in Hok.
  assert (G : Get env serverURL st
              = (runDeferred
                   (mkSt w2 (mkHelper (logger (self sa)) (Some (SetToken token c')))
                      (events sa ++ [EvSetToken token; EvGetCredentials secret token])
                      (deferred sa)),
                 Returns (Username creds) (Password creds) None)).
  { unfold Get, Get_body. rewrite (bind_Next _ _ _ _ _ Hp).
    rewrite (bind_Return _ _ _ _ _ _ _ Hok). reflexivity. }
  eexists. split; [exact G|]. split; [|split; [|split]].
  - unfold runDeferred. simpl. rewrite !exchanges_app, exchanges_close, X, Hx.
    simpl. rewrite app_nil_r, <- app_assoc. reflexivity.
  - rewrite length_app. simpl. lia.
  - unfold runDeferred. simpl.
    rewrite !loginStarted_app, loginStarted_close, Y, Hy. simpl.
    rewrite !orb_false_r. reflexivity.
  - intros b. apply Get_behaves_Returns with (1 := G).
Qed.


(** ** From the cached tokens to the login *)

(** With a logger and a client in place, building the sinks or the method
    ends with a value or an error; it never panics and never returns from
    [Get] by itself. *)
Lemma buildSinks_from_Next (ss : list Sink) :
  forall (sinks : list SinkConfig) (st : St env) l c,
    logger (self st) = Some l ->
    client (self st) = Some c ->
    exists st' r,
      buildSinks_from env sinks ss st = (st', Next r) /\ self st' = self st.
Proof.
  induction ss as [|sc ss IH]; intros sinks st l c Hl Hc; simpl.
  - unfold ret. eauto.
  - destruct (String.eqb (s_Type sc) "file").
    + unfold bind at 1. unfold withLogger at 1. rewrite Hl.
      unfold withClient at 1. rewrite Hc. unfold ret at 1.
      unfold bind at 1. unfold call at 1.
      destruct (NewFileSink env _ (world st)) as [w [s|e]].
      * apply (IH _ (mkSt w (self st) _ (deferred st)) l c); assumption.
      * unfold ret. eauto.
    + unfold ret. eauto.
Qed.

Lemma buildMethod_Next (config : Method) (st : St env) l c :
  logger (self st) = Some l ->
  client (self st) = Some c ->
  exists st' r, buildMethod env config st = (st', Next r) /\ self st' = self st.
Proof.
  intros Hl Hc. unfold buildMethod.
  unfold bind at 1. unfold withLogger at 1. rewrite Hl. unfold ret at 1.
  destruct (methodKind (m_Type config)) as [k|].
  - unfold bind, call.
    destruct (NewAuthMethod env k _ (world st)) as [w [m|e]]; unfold ret; eauto.
  - unfold ret. eauto.
Qed.

(** C2: when no cached token gives the credentials (every exchange fails,
    or there is no cached token at all), [Get] clears the token and goes on
    to the login: it starts the two tasks, unless a sink or the login
    method cannot be built, which is the only way it returns "credentials
    not found" from here without having started them. *)
Theorem Get_without_valid_cached_token_starts_login
  (serverURL : string) (st st1 : St env) (autoAuth : AutoAuth) (secret : string)
  (tokens : list string) (c : Client) (w1 : World env)
  (outs : list (result Credentials)) :
  Get_prepare env st = (st1, Next (autoAuth, secret, tokens)) ->
  client (self st1) = Some c ->
  exchangeEach env secret c tokens (world st1) = (w1, outs) ->
  forallb failed outs = true ->
  exists st2 st3,
    Get_useTokens env secret tokens st1 = (st2, Next tt)
    /\ clearToken st2 = (st3, Next tt)
    /\ ((exists st' hs,
           Get env serverURL st = (st', Spawns hs)
           /\ hs_secret hs = secret
           /\ loginStarted (events st') = true
           /\ initial hs = mkHState pc_select1 false AuthRunning None SinkWaiting "")
        \/ (exists st',
              Get env serverURL st = (st', Returns "" "" (Some errCredentialsNotFound))
              /\ ((exists st4 e,
                     buildSinks env (aa_Sinks autoAuth) st3 = (st4, Next (err e)))
                  \/ (exists st4 sinks st5 e,
                        buildSinks env (aa_Sinks autoAuth) st3 = (st4, Next (ok sinks))
                        /\ buildMethod env (aa_Method autoAuth) st4
                           = (st5, Next (err e)))))).
Proof.
  intros Hp Hc He Hf.
  destruct (Get_prepare_ready _ _ _ Hp) as (Hl & _ & _).
  destruct (logger (self st1)) as [l|] eqn:El; [clear Hl | congruence].
  destruct (Get_useTokens_failures secret tokens [] st1 l c w1 outs El Hc He Hf)
    as (st2 & E & _ & L & (c' & C & _) & _ & _ & _).
  rewrite app_nil_r in E. simpl in E. unfold ret in E.
  set (st3 := mkSt (world st2) (mkHelper (Some l) (Some (ClearToken c')))
                (events st2 ++ [EvClearToken]) (deferred st2)).
  assert (Hclr : clearToken st2 = (st3, Next tt)).
  { unfold clearToken, withClient. rewrite C.
    unfold bind, setClient, emit. simpl. rewrite L. reflexivity. }
  exists st2, st3. split; [exact E|]. split; [exact Hclr|].
  assert (G : Get_body env serverURL st = Get_startLogin env autoAuth secret st2).
  { unfold Get_body. rewrite (bind_Next _ _ _ _ _ Hp).
    rewrite (bind_Next _ _ _ _ _ E). reflexivity. }
  unfold Get_startLogin in G. rewrite (bind_Next _ _ _ _ _ Hclr) in G.
  destruct (buildSinks_from_Next (aa_Sinks autoAuth) [] st3 l (ClearToken c')
              eq_refl eq_refl) as (st4 & rs & Hs & Self4).
  fold (buildSinks env (aa_Sinks autoAuth)) in Hs.
  rewrite (bind_Next _ _ _ _ _ Hs) in G.
  destruct st4 as [w4 h4 ev4 d4]. simpl in Self4. subst h4.
  destruct rs as [sinks|e].
  - destruct (buildMethod_Next (aa_Method autoAuth)
                (mkSt w4 (self st3) ev4 d4) l (ClearToken c') eq_refl eq_refl)
      as (st5 & rm & Hm & Self5).
    unfold bind at 1 in G. unfold ret at 1 in G.
    rewrite (bind_Next _ _ _ _ _ Hm) in G.
    destruct st5 as [w5 h5 ev5 d5]. simpl in Self5. subst h5.
    destruct rm as [method|e].
    + left. unfold Get. rewrite G. simpl.
      eexists _, _. split; [reflexivity|]. split; [reflexivity|].
      split; [|reflexivity]. simpl.
      rewrite <- app_assoc, loginStarted_app. simpl. apply orb_true_r.
    + right. unfold Get. rewrite G. simpl.
      eexists. split; [reflexivity|]. right. eauto 6.
  - right. unfold Get. rewrite G. simpl.
    eexists. split; [reflexivity|]. left. eauto.
Qed.


(** ** The outcome contract of the sequential part *)

Lemma polite_ret {A} b (a : A) : polite b (@ret env A a).
Proof. intros st st' r H L C. inversion H; subst. auto. Qed.

Lemma polite_notFound {A} b : polite b (@notFound env A).
Proof. intros st st' r H L C. inversion H; subst. right. reflexivity. Qed.

Lemma polite_returns_nil {A} b u p : polite b (@returns env A u p None).
Proof. intros st st' r H L C. inversion H; subst. left. reflexivity. Qed.

Lemma polite_needs {A} (m : M env A) : polite false m -> polite true m.
Proof. intros P st st' r H L C. apply (P st st' r H L). discriminate. Qed.

Lemma polite_bind {A B} b (m : M env A) (k : A -> M env B) :
  polite b m -> (forall a, polite b (k a)) -> polite b (bind m k).
Proof.
  intros Pm Pk st st' r H L C. unfold bind in H.
  destruct (m st) as [st0 [a|u p e|]] eqn:E; pose proof (Pm _ _ _ E L C) as X.
  - destruct X as [L0 C0].
    pose proof (Pk a _ _ _ H L0 (fun Hb => C0 (C Hb))) as Y.
    destruct r; auto. destruct Y as [L1 C1]. split; auto.
  - inversion H; subst. exact X.
  - contradiction.
Qed.

(** A statement that leaves a client behind makes the client available to
    what follows. *)
Lemma polite_bind_client {A B} (m : M env A) (k : A -> M env B) :
  polite false m ->
  (forall st st' a, m st = (st', Next a) -> client (self st') <> None) ->
  (forall a, polite true (k a)) -> polite false (bind m k).
Proof.
  intros Pm Cm Pk st st' r H L C. unfold bind in H.
  destruct (m st) as [st0 [a|u p e|]] eqn:E; pose proof (Pm _ _ _ E L C) as X.
  - destruct X as [L0 C0].
    pose proof (Pk a _ _ _ H L0 (fun _ => Cm _ _ _ E)) as Y.
    destruct r; auto. destruct Y as [L1 C1]. split; auto.
  - inversion H; subst. exact X.
  - contradiction.
Qed.

Lemma polite_emit b (e : event) : polite b (@emit env e).
Proof. intros st st' r H L C. inversion H; subst. simpl. auto. Qed.

Lemma polite_call {A} b (op : World env -> World env * A) (ev : A -> event) :
  polite b (call op ev).
Proof.
  intros st st' r H L C. unfold call in H.
  destruct (op (world st)) as [w a]. inversion H; subst. simpl. auto.
Qed.

Lemma polite_defer b (w : handle) : polite b (@defer env w).
Proof. intros st st' r H L C. inversion H; subst. simpl. auto. Qed.

Lemma polite_setClient b (c : Client) : polite b (@setClient env c).
Proof.
  intros st st' r H L C. inversion H; subst. simpl. split; [exact L|].
  discriminate.
Qed.

Lemma polite_withLogger {A} b (k : Logger -> M env A) :
  (forall l, polite b (k l)) -> polite b (withLogger k).
Proof.
  intros Pk st st' r H L C. unfold withLogger in H.
  destruct (logger (self st)) as [l|] eqn:E; [|congruence].
  apply (Pk l st st' r H); [congruence | exact C].
Qed.

Lemma polite_withClient {A} (k : Client -> M env A) :
  (forall c, polite true (k c)) -> polite true (withClient k).
Proof.
  intros Pk st st' r H L C. unfold withClient in H.
  destruct (client (self st)) as [c|] eqn:E; [|exfalso; apply C; reflexivity].
  pose proof (Pk c st st' r H L) as X. rewrite E in X. apply X. discriminate.
Qed.

Lemma polite_log b lvl msg : polite b (@log env lvl msg).
Proof. apply polite_withLogger. intros l. apply polite_emit. Qed.

Lemma polite_ifErr b e (body : M env unit) : polite b body -> polite b (ifErr e body).
Proof. intros H. destruct e; simpl; [exact H | apply polite_ret]. Qed.

Ltac polite_step :=
  first
    [ apply polite_bind; [|intros ?]
    | apply polite_ret | apply polite_notFound | apply polite_returns_nil
    | apply polite_log | apply polite_defer | apply polite_setClient
    | apply polite_ifErr
    | apply polite_emit | apply polite_call
    | apply polite_withLogger; intros ?
    | apply polite_withClient; intros ? ].

Ltac polite_auto :=
  repeat (polite_step
          || match goal with
             | |- polite _ (match ?x with _ => _ end) => destruct x
             | |- polite _ (if ?x then _ else _) => destruct x
             | |- polite _ (let (_, _) := ?x in _) => destruct x
             end).

Lemma polite_Get_config : polite false (Get_config env).
Proof.
  unfold Get_config.
  apply polite_bind; [polite_auto | intros f].
  apply polite_bind.
  - intros st st' r H. revert H. apply polite_call.
  - intros [config e]. polite_auto.
Qed.

Lemma polite_Get_client : polite false (Get_client env).
Proof.
  intros st st' r H. unfold Get_client in H.
  destruct (client (self st)) eqn:E.
  - intros L C. inversion H; subst. split; [exact L | congruence].
  - intros L C.
    match type of H with
    | ?m st = _ => assert (P : polite false m) by polite_auto
    end.
    pose proof (P _ _ _ H L) as X. rewrite E in X. apply X. discriminate.
Qed.

Lemma polite_Get_cachedTokens aa : polite true (Get_cachedTokens env aa).
Proof. unfold Get_cachedTokens. polite_auto. Qed.

Lemma polite_Get_renew toks : polite true (Get_renew env toks).
Proof. induction toks as [|t toks IH]; simpl; polite_auto. exact IH. Qed.

Lemma polite_Get_useTokens secret toks : polite true (Get_useTokens env secret toks).
Proof.
  induction toks as [|t toks IH]; simpl; [apply polite_ret|].
  unfold setToken, getCredentials. polite_auto. exact IH.
Qed.

Lemma polite_buildSinks_from ss :
  forall sinks, polite true (buildSinks_from env sinks ss).
Proof.
  induction ss as [|sc ss IH]; intros sinks; simpl; polite_auto. apply IH.
Qed.

Lemma polite_buildMethod config : polite true (buildMethod env config).
Proof. unfold buildMethod. polite_auto. Qed.

Lemma polite_Get_startLogin aa secret : polite true (Get_startLogin env aa secret).
Proof.
  unfold Get_startLogin, clearToken, buildSinks. polite_auto.
  apply polite_buildSinks_from.
Qed.


Lemma bind_same {A B} (m : M env A) (k : A -> M env B) st st' :
  m st = m st' -> bind m k st = bind m k st'.
Proof. unfold bind. intros ->. reflexivity. Qed.

Lemma polite_Get_logger : polite false (Get_logger env).
Proof.
  intros st st' r H L C. unfold Get_logger in H.
  destruct (logger (self st)) eqn:E; [|congruence].
  inversion H; subst. split; [congruence | auto].
Qed.

Lemma polite_Get_prepare : polite false (Get_prepare env).
Proof.
  unfold Get_prepare.
  apply polite_bind; [apply polite_Get_logger | intros _].
  apply polite_bind; [apply polite_Get_config | intros [aa secret]].
  apply polite_bind_client.
  - apply polite_Get_client.
  - intros st st' a. apply Get_client_Next.
  - intros _. apply polite_bind; [apply polite_Get_cachedTokens | intros toks].
    apply polite_bind; [apply polite_Get_renew | intros _]. apply polite_ret.
Qed.

Lemma polite_Get_body serverURL : polite false (Get_body env serverURL).
Proof.
  unfold Get_body. apply polite_bind_client.
  - apply polite_Get_prepare.
  - intros st st' a H. apply (Get_prepare_ready _ _ _ H).
  - intros [[aa secret] toks].
    apply polite_bind; [apply polite_Get_useTokens | intros _].
    apply polite_Get_startLogin.
Qed.

(** When the log file opens, the logger is in place afterwards and the
    rest of [Get] runs as if it had been there from the start. *)
Lemma Get_logger_opens st w :
  logger (self st) = None ->
  snd (LogWriter env (world st)) = ok w ->
  exists st1,
    Get_logger env st = (st1, Next tt)
    /\ logger (self st1) <> None
    /\ Get_logger env st1 = (st1, Next tt).
Proof.
  intros L W. unfold Get_logger at 1. rewrite L.
  unfold bind, call. destruct (LogWriter env (world st)) as [w0 r].
  simpl in W. subst r. simpl. eexists. split; [reflexivity|].
  split; [simpl; discriminate | reflexivity].
Qed.

(** Unless the log file fails to open on a helper without logger, the
    sequential part of [Get] never panics, and what it returns is within
    the contract. *)
Lemma Get_sequential_contract serverURL st st' o :
  Get env serverURL st = (st', o) ->
  logger (self st) <> None \/ (exists w, snd (LogWriter env (world st)) = ok w) ->
  match o with
  | Returns u p e => contract u p e
  | Panics => False
  | Spawns _ => True
  end.
Proof.
  intros G H.
  assert (P : exists st0, logger (self st0) <> None
                          /\ Get_body env serverURL st = Get_body env serverURL st0).
  { destruct (logger (self st)) eqn:L.
    - exists st. split; [congruence | reflexivity].
    - destruct H as [H | [w W]]; [congruence|].
      destruct (Get_logger_opens st w L W) as (st1 & E1 & L1 & E2).
      exists st1. split; [exact L1|].
      unfold Get_body, Get_prepare. apply bind_same.
      rewrite (bind_Next _ _ _ _ _ E1), (bind_Next _ _ _ _ _ E2). reflexivity. }
  destruct P as (st0 & L0 & E). unfold Get in G. rewrite E in G.
  destruct (Get_body env serverURL st0) as [st2 r] eqn:B.
  assert (X := polite_Get_body serverURL _ _ _ B L0
                 (fun F : false = true => False_ind _ (diff_false_true F))).
  destruct r; inversion G; subst; exact X || exact I.
Qed.

End GetSequential.

(** The failing run for C7: a helper made by [NewHelper(nil)], in a world
    where the log file does not open. *)
Lemma Get_panics_when_log_file_fails_witness :
  let env := exampleEnv false [] "" true in
  let st := start env (NewHelper None) tt in
  snd (Get env "registry.example.com" st) = Panics
  /\ Get_behaves env "registry.example.com" st BPanics.
Proof.
  cbv zeta.
  apply (Get_panics_when_log_file_fails (exampleEnv false [] "" true)
           "registry.example.com" _ (errorString "permission denied"));
    reflexivity.
Defined.

(** C1 run on three cached tokens of which the second is the first one
    the secret can be read with. *)
Lemma Get_returns_first_valid_cached_token_witness :
  let env := exampleEnv true ["a"; "b"; "c"] "b" true in
  let st := start env (NewHelper None) tt in
  exists st',
    Get env "registry.example.com" st
    = (st', Returns "docker" "hunter2" None)
    /\ exchanges (events st') = ["a"; "b"]
    /\ List.length ["a"; "b"] = 2%nat
    /\ loginStarted (events st') = false
    /\ (forall b, Get_behaves env "registry.example.com" st b ->
                  b = BReturns "docker" "hunter2" None).
Proof.
  cbv zeta.
  eapply (Get_returns_first_valid_cached_token
            (exampleEnv true ["a"; "b"; "c"] "b" true)
            "registry.example.com"
            (start (exampleEnv true ["a"; "b"; "c"] "b" true)
               (NewHelper None) tt)
            _ _ _ ["a"] "b" ["c"] _ tt tt
            [err (errorString "permission denied")]
            exampleCredentials);
    lazy; reflexivity.
Defined.

(** C2 run on two cached tokens the secret cannot be read with: the two
    tasks are started. *)
Lemma Get_without_valid_cached_token_starts_login_witness :
  let env := exampleEnv true ["a"; "c"] "b" true in
  let st := start env (NewHelper None) tt in
  exists st' hs,
    Get env "registry.example.com" st = (st', Spawns hs)
    /\ hs_secret hs = "secret/docker".
Proof.
  cbv zeta.
  destruct (Get_without_valid_cached_token_starts_login
              (exampleEnv true ["a"; "c"] "b" true) "registry.example.com"
              (start (exampleEnv true ["a"; "c"] "b" true) (NewHelper None) tt)
              _ _ "secret/docker" ["a"; "c"] (mkClient 1 "") tt
              [err (errorString "permission denied");
               err (errorString "permission denied")]
              ltac:(lazy; reflexivity) eq_refl eq_refl eq_refl)
    as (st2 & st3 & _ & _ & [(st' & hs & G & S & _) | (st' & G & _)]).
  - exists st', hs. split; assumption.
  - exfalso. lazy in G. discriminate G.
Defined.

(* ================================================================== *)
(** * The helper: the handshake of [Get] with the two tasks *)
(* ================================================================== *)

Section Handshake.

Local Open Scope list_scope.

Variable secret : string.

(** ** Executions *)

Lemma exec_app s tr1 s' tr2 s'' :
  exec secret s tr1 s' -> exec secret s' tr2 s'' -> exec secret s (tr1 ++ tr2) s''.
Proof.
  induction 1 as [|s l s1 tr s2 Hs He IH]; intros H2; simpl.
  - exact H2.
  - eapply exec_cons; [exact Hs | exact (IH H2)].
Qed.

Lemma exec_app_inv tr1 : forall s tr2 s'',
  exec secret s (tr1 ++ tr2) s'' ->
  exists s', exec secret s tr1 s' /\ exec secret s' tr2 s''.
Proof.
  induction tr1 as [|l tr1 IH]; intros s tr2 s'' H; simpl in H.
  - exists s. split; [constructor | exact H].
  - inversion H; subst.
    destruct (IH _ _ _ H5) as (s1 & E1 & E2).
    exists s1. split; [econstructor; eassumption | exact E2].
Qed.

(** Every step uses up fuel, so an execution is never longer than the fuel
    of the state it starts in: [Get] cannot go on for ever. *)
Lemma step_fuel s l s' : step secret s l s' -> (fuel s' < fuel s)%nat.
Proof.
  intros H. inversion H; subst; unfold fuel; simpl;
    repeat match goal with
           | p : PC |- _ => destruct p
           | b : bool |- _ => destruct b
           | a : AuthTask |- _ => destruct a
           | t : SinkTask |- _ => destruct t
           end; simpl in *; try lia; try congruence; try discriminate.
Qed.

Lemma exec_fuel s tr s' :
  exec secret s tr s' -> (List.length tr + fuel s' <= fuel s)%nat.
Proof.
  induction 1 as [|s l s1 tr s2 Hs He IH]; simpl; [lia|].
  apply step_fuel in Hs. lia.
Qed.

Lemma exec_bounded hs tr s :
  exec secret (initial hs) tr s -> (List.length tr <= 17)%nat.
Proof. intros H. apply exec_fuel in H. unfold initial, fuel in H. simpl in H. lia. Qed.

(** ** What stays true of the tasks and of the context *)

Lemma step_ctx_done s l s' :
  step secret s l s' -> ctx_done s = true -> ctx_done s' = true.
Proof. intros H. inversion H; subst; simpl; auto; discriminate. Qed.

Lemma step_auth_done s l s' :
  step secret s l s' -> auth s = AuthDone -> auth s' = AuthDone.
Proof. intros H. inversion H; subst; simpl; auto; try discriminate; congruence. Qed.

Lemma step_sink_done_stays s l s' :
  step secret s l s' -> is_done (sink s) = true -> is_done (sink s') = true.
Proof. intros H. inversion H; subst; simpl; auto; try discriminate; congruence. Qed.


(** ** Where the handshake can come to a stop *)

Lemma parked_ok_initial hs : parked_ok (initial hs).
Proof. reflexivity. Qed.

Lemma parked_ok_step s l s' : step secret s l s' -> parked_ok s -> parked_ok s'.
Proof.
  intros H. inversion H; subst; unfold parked_ok; simpl; auto;
    try (destruct p as [| | | |? []| | | | | | | | | | |]; simpl; tauto).
Qed.

Lemma parked_ok_exec s tr s' : exec secret s tr s' -> parked_ok s -> parked_ok s'.
Proof.
  induction 1 as [|s l s1 tr s2 Hs He IH]; intros H; [exact H|].
  apply IH. eapply parked_ok_step; eassumption.
Qed.

(** In a state where nothing can happen any more the deadline has passed
    (or the context was cancelled) and both tasks have ended. *)
Lemma terminal_quiet s :
  terminal secret s ->
  ctx_done s = true /\ auth s = AuthDone /\ is_done (sink s) = true.
Proof.
  destruct s as [p c au out sk tok]. intros T. simpl.
  assert (C : c = true).
  { destruct c; [reflexivity|]. exfalso. eapply T. apply step_deadline. }
  subst c. split; [reflexivity|]. split.
  - destruct au; try reflexivity; exfalso; eapply T;
      apply step_auth_exit with (why := ExitCancelled);
      (discriminate || reflexivity).
  - destruct (is_done sk) eqn:D; [reflexivity|]. exfalso. eapply T.
    apply step_sink_exit with (why := ExitCancelled); [exact D | reflexivity].
Qed.

(** [Get] comes to a stop in two ways only: it has returned, or it is
    blocked in the send of line 209 after the Sink-Write Task has ended. *)
Lemma terminal_returned_or_blocked s :
  parked_ok s -> terminal secret s ->
  (exists u p e, pc s = pc_returned u p e)
  \/ (exists token, pc s = pc_send token /\ is_done (sink s) = true).
Proof.
  intros W T. destruct (terminal_quiet s T) as (C & A & D).
  destruct s as [p c au out sk tok]. simpl in *. subst c au.
  destruct sk as [| |persisted]; try discriminate.
  unfold parked_ok in W. simpl in W.
  destruct p as [| |t|t|t [|]|t|t|t|t| | |n| | |u q e|u q e];
    try discriminate; try (destruct W; discriminate);
    try (left; eauto; fail); try (right; eauto; fail);
    exfalso; eapply T.
  - apply step_select1_ctx.
  - apply step_got_token.
  - apply step_select2_ctx.
  - apply step_sink_done.
  - apply step_cancel.
  - apply step_wait_auth.
  - apply step_set_token.
  - apply step_get_creds_err with (e := errCredentialsNotFound).
  - apply step_read_error.
  - apply step_timeout.
  - apply step_timeout_auth.
  - apply step_timeout_sink.
  - apply step_return.
Qed.

(** ** The send of line 209 *)

Lemma exec_blocking_trace hs token :
  exec secret (initial hs) (blocking_trace token)
    (mkHState (pc_send token) true AuthDone None (SinkDone None)
       (c_token (hs_client hs))).
Proof.
  unfold initial, blocking_trace.
  eapply exec_cons; [apply step_select1_park|].
  eapply exec_cons; [apply step_auth_output|]. simpl.
  eapply exec_cons; [apply step_got_token|].
  eapply exec_cons; [apply step_deadline|]. simpl.
  eapply exec_cons;
    [apply step_sink_exit with (why := ExitCancelled); reflexivity|]. simpl.
  eapply exec_cons;
    [apply step_auth_exit with (why := ExitCancelled);
     [discriminate | reflexivity]|].
  apply exec_nil.
Qed.

Lemma blocked_send_terminal token out persisted tok :
  terminal secret
    (mkHState (pc_send token) true AuthDone out (SinkDone persisted) tok).
Proof.
  intros l s' H. inversion H; subst; try congruence; discriminate.
Qed.


(** ** The first select ends on the deadline *)

Lemma actions_app tr1 tr2 : actions (tr1 ++ tr2) = actions tr1 ++ actions tr2.
Proof. apply filter_app. Qed.

Lemma exec_ctx_done s tr s' :
  exec secret s tr s' -> ctx_done s = true -> ctx_done s' = true.
Proof.
  induction 1 as [|s l s1 tr s2 Hs He IH]; intros C; [exact C|].
  apply IH. eapply step_ctx_done; eassumption.
Qed.

(** Until the Login Task writes its token or the deadline passes, [Get]
    enters its first [select] and stays blocked in it. *)
Lemma waiting_step s l s' acts :
  step secret s l s' -> ctx_done s' = false -> waiting s acts ->
  (forall token, l <> LAuthOutput token) ->
  waiting s' (acts ++ actions [l]).
Proof.
  intros H C W N. unfold waiting in *.
  inversion H; subst; simpl in *; try discriminate;
    try (exfalso; eapply N; reflexivity);
    try (destruct W as [(P & O & A) | (P & A)]; subst; simpl;
         try discriminate; auto; fail).
Qed.

Lemma waiting_for_token s tr s' :
  exec secret s tr s' ->
  forall acts,
    ctx_done s' = false -> waiting s acts ->
    (forall token, ~ In (LAuthOutput token) tr) ->
    waiting s' (acts ++ actions tr).
Proof.
  induction 1 as [|s l s1 tr s2 Hs He IH]; intros acts C W N.
  - unfold actions. simpl. rewrite app_nil_r. exact W.
  - change (l :: tr) with ([l] ++ tr). rewrite actions_app, app_assoc.
    apply IH; [exact C | |].
    + eapply waiting_step; [exact Hs | | exact W |].
      * destruct (ctx_done s1) eqn:E; [|reflexivity].
        rewrite (exec_ctx_done _ _ _ He E) in C. discriminate C.
      * intros token ->. apply (N token). left. reflexivity.
    + intros token I. apply (N token). right. exact I.
Qed.

Lemma timed_out_step n s acts l s' :
  timed_out n s acts -> step secret s l s' ->
  timed_out n s' (acts ++ actions [l]).
Proof.
  intros [C I] H. unfold timed_out.
  inversion H; subst; simpl in *; try discriminate; try contradiction;
    (split; [solve [auto]|]);
    try match goal with
        | q : PC |- _ => destruct q; simpl in *; try contradiction
        end;
    rewrite ?app_nil_r;
    intuition (subst; simpl; try congruence; try discriminate; auto);
    match goal with
    | E : (_, _, _) = (_, _, _) |- _ => inversion E; subst; reflexivity
    end.
Qed.

Lemma timed_out_exec n s tr s' :
  exec secret s tr s' ->
  forall acts, timed_out n s acts -> timed_out n s' (acts ++ actions tr).
Proof.
  induction 1 as [|s l s1 tr s2 Hs He IH]; intros acts T.
  - unfold actions. simpl. rewrite app_nil_r. exact T.
  - change (l :: tr) with ([l] ++ tr). rewrite actions_app, app_assoc.
    apply IH. eapply timed_out_step; eassumption.
Qed.

(** What [Get] has done since the timeout is a prefix of what it does
    on a timeout. *)
Lemma timed_out_prefix n s acts :
  timed_out n s acts -> exists k, acts = firstn k (timeout_actions n).
Proof.
  intros [_ I]. destruct (pc s); try contradiction.
  - exists 0%nat. tauto.
  - exists 1%nat. exact I.
  - exists 2%nat. tauto.
  - exists 3%nat. tauto.
  - exists 4%nat. tauto.
Qed.

(** When the deadline has passed before [Get] enters its first [select]
    and no token is written before it does, the [select] ends on the
    deadline. *)
Lemma pending_exec s tr s' :
  exec secret s tr s' -> pending s ->
  (forall pre token post, tr = pre ++ LAuthOutput token :: post -> actions pre <> []) ->
  (pending s' /\ actions tr = [])
  \/ (exists acts, actions tr = OSelectCtxDone :: acts /\ timed_out First s' acts).
Proof.
  induction 1 as [|s l s1 tr s2 Hs He IH]; intros P L.
  - left. split; [exact P | reflexivity].
  - destruct P as (P1 & P2 & P3).
    assert (K : (pending s1 /\ of_Get l = false)
                \/ (l = OSelectCtxDone /\ timed_out First s1 [])).
    { inversion Hs; subst; simpl in *; subst; try discriminate.
      - exfalso. apply (L [] token tr eq_refl). reflexivity.
      - left. repeat split.
      - left. repeat split.
      - left. repeat split.
      - right. split; [reflexivity|]. split; simpl; auto. }
    destruct K as [(Q & G) | (-> & T)].
    + destruct (IH Q) as [(Q' & A) | (acts & A & T)].
      * intros pre token post ->. 
        pose proof (L (l :: pre) token post eq_refl) as X.
        unfold actions in X. simpl in X. rewrite G in X. exact X.
      * left. split; [exact Q'|]. unfold actions. simpl. rewrite G. exact A.
      * right. exists acts. split; [|exact T].
        unfold actions. simpl. rewrite G. exact A.
    + right. exists (actions tr). split; [reflexivity|].
      exact (timed_out_exec _ _ _ _ He [] T).
Qed.

Lemma timed_out_terminal n s acts :
  timed_out n s acts -> terminal secret s ->
  pc s = pc_returned "" "" (Some errCredentialsNotFound).
Proof.
  intros [C I] T. destruct (terminal_quiet s T) as (_ & A & D).
  destruct s as [p c au out sk tok]. simpl in *. subst c au.
  destruct sk as [| |persisted]; try discriminate.
  destruct p; try contradiction.
  - exfalso. eapply T. apply step_timeout.
  - exfalso. eapply T. apply step_timeout_auth.
  - exfalso. eapply T. apply step_timeout_sink.
  - exfalso. eapply T. apply step_return.
  - destruct I as (_ & _ & _ & E). inversion E; subst. reflexivity.
Qed.



Lemma timed_out_no_exchange n s acts : timed_out n s acts -> exchanged acts = [].
Proof.
  intros [_ I]. destruct (pc s); try contradiction;
    repeat match goal with
           | H : _ /\ _ |- _ => destruct H
           end; subst; reflexivity.
Qed.

(** ** After the second select has ended on [ss.DoneCh] *)




Lemma exchanged_actions tr : exchanged (actions tr) = exchanged tr.
Proof.
  induction tr as [|l tr IH]; [reflexivity|].
  destruct l; simpl; rewrite ?IH; reflexivity.
Qed.



(** ** What the handshake returns *)

Lemma returns_in_contract_step s l s' :
  step secret s l s' -> returns_in_contract s -> returns_in_contract s'.
Proof.
  intros H. unfold returns_in_contract, contract.
  inversion H; subst; simpl; auto;
    try match goal with
        | q : PC |- _ => destruct q as [| | | |? []| | | | | | | | | | |]; simpl; auto
        end.
Qed.

Lemma returns_in_contract_exec s tr s' :
  exec secret s tr s' -> returns_in_contract s -> returns_in_contract s'.
Proof.
  induction 1 as [|s l s1 tr s2 Hs He IH]; intros H; [exact H|].
  apply IH. eapply returns_in_contract_step; eassumption.
Qed.

End Handshake.

(** X11: Apart from the panic on the nil logger, every call of [Get] that
    returns does so within the contract of the credential-store protocol,
    from the sequential part as from the handshake. *)
Lemma Get_contract_unless_log_file_fails
  (env : Env) (serverURL : string) (st : St env) (b : Behaviour) :
  logger (self st) <> None \/ (exists w, snd (LogWriter env (world st)) = ok w) ->
  Get_behaves env serverURL st b ->
  match b with
  | BReturns u p e => contract u p e
  | BPanics => False
  | BBlocks => True
  end.
Proof.
  intros H B. inversion B; subst.
  - exact (Get_sequential_contract env serverURL st _ _ H0 H).
  - exact (Get_sequential_contract env serverURL st _ _ H0 H).
  - pose proof (returns_in_contract_exec _ _ _ _ H1 I) as R.
    unfold returns_in_contract in R. rewrite H2 in R. exact R.
  - exact I.
Qed.

(** C3, as the code has it: when the deadline passes before the Login
    Task has written a token, and [Get] is then blocked in its first
    [select] or enters it before a token is written, [Get] does nothing
    but enter that [select], log the timeout, receive from [ah.DoneCh],
    receive from [ss.DoneCh] and return "credentials not found", in this
    order; so when it has returned, both tasks have ended and both
    completion signals were received before the return.  An execution
    that can go no further has returned, and no execution is longer than
    17 steps. *)
Theorem Get_login_deadline_not_found
  (hs : Handshake) (tr1 tr2 : list label) (s : HState) :
  exec (hs_secret hs) (initial hs) (tr1 ++ LDeadline :: tr2) s ->
  (forall token, ~ In (LAuthOutput token) tr1) ->
  (In OPark tr1
   \/ forall pre token post,
        tr2 = pre ++ LAuthOutput token :: post -> actions pre <> []) ->
  (exists k l,
     entry l
     /\ actions (tr1 ++ LDeadline :: tr2) = firstn k (l :: timeout_actions First))
  /\ (forall u p e,
        pc s = pc_returned u p e ->
        (u, p, e) = ("", "", Some errCredentialsNotFound)
        /\ (exists l,
              entry l
              /\ actions (tr1 ++ LDeadline :: tr2) = l :: timeout_actions First)
        /\ auth s = AuthDone /\ is_done (sink s) = true)
  /\ (terminal (hs_secret hs) s ->
      pc s = pc_returned "" "" (Some errCredentialsNotFound))
  /\ (List.length (tr1 ++ LDeadline :: tr2) <= 17)%nat.
Proof.
  intros E N L.
  pose proof (exec_bounded _ _ _ _ E) as B.
  apply exec_app_inv in E. destruct E as (s1 & E1 & E2).
  inversion E2 as [|a l s1' tr b Hs E3]; subst.
  assert (C1 : ctx_done s1 = false) by (inversion Hs; reflexivity).
  assert (W0 : waiting (initial hs) []) by (left; repeat split; reflexivity).
  pose proof (waiting_for_token _ _ _ _ E1 [] C1 W0 N) as W. simpl in W.
  assert (A : actions (tr1 ++ LDeadline :: tr2) = actions tr1 ++ actions tr2).
  { rewrite actions_app. reflexivity. }
  rewrite A.
  assert (T : (actions tr1 = [OPark]
               /\ exists acts, actions tr2 = acts /\ timed_out First s acts)
              \/ (actions tr1 = []
                  /\ ((pending s /\ actions tr2 = [])
                      \/ exists acts, actions tr2 = OSelectCtxDone :: acts
                                      /\ timed_out First s acts))).
  { destruct W as [(P & O & A1) | (P & A1)].
    - right. split; [exact A1|].
      assert (P1 : pending s1').
      { inversion Hs; subst. simpl in *. subst. repeat split. }
      destruct L as [L | L].
      + exfalso. apply (in_split OPark) in L. destruct L as (x & y & ->).
        rewrite actions_app in A1. simpl in A1.
        apply app_eq_nil in A1. destruct A1 as [_ A1]. discriminate A1.
      + exact (pending_exec _ _ _ _ E3 P1 L).
    - left. split; [exact A1|]. exists (actions tr2). split; [reflexivity|].
      assert (T0 : timed_out First s1' []).
      { inversion Hs; subst. simpl in P. subst. split; simpl; auto. }
      exact (timed_out_exec _ _ _ _ _ E3 [] T0). }
  split; [|split; [|split; [|exact B]]].
  - destruct T as [(A1 & acts & A2 & T) | (A1 & [(P & A2) | (acts & A2 & T)])];
      rewrite A1, A2.
    + destruct (timed_out_prefix _ _ _ T) as (k & ->).
      exists (S k), OPark. split; [left; reflexivity | reflexivity].
    + exists 0%nat, OPark. split; [left; reflexivity | reflexivity].
    + destruct (timed_out_prefix _ _ _ T) as (k & ->).
      exists (S k), OSelectCtxDone. split; [right; reflexivity | reflexivity].
  - intros u p e P.
    destruct T as [(A1 & acts & A2 & T) | (A1 & [(Q & A2) | (acts & A2 & T)])];
      rewrite A1, A2.
    + destruct T as [_ I]. rewrite P in I. destruct I as (I1 & I2 & I3 & I4).
      split; [exact I4|]. split; [|tauto].
      exists OPark. split; [left; reflexivity | rewrite I1; reflexivity].
    + destruct Q as (Q & _). rewrite P in Q. discriminate Q.
    + destruct T as [_ I]. rewrite P in I. destruct I as (I1 & I2 & I3 & I4).
      split; [exact I4|]. split; [|tauto].
      exists OSelectCtxDone. split; [right; reflexivity | rewrite I1; reflexivity].
  - intros Tm.
    destruct T as [(A1 & acts & A2 & T) | (A1 & [(Q & A2) | (acts & A2 & T)])].
    + eapply timed_out_terminal; eassumption.
    + exfalso. destruct s as [p c au out sk tok]. destruct Q as (Q1 & Q2 & Q3).
      simpl in *. subst. eapply Tm. apply step_select1_ctx.
    + eapply timed_out_terminal; eassumption.
Qed.

(** C3 on the run in which [Get] waits in its first [select] and the
    login never comes back: both tasks end on the cancelled context and
    [Get] returns "credentials not found". *)
Lemma Get_login_deadline_not_found_witness :
  (exists l,
     entry l
     /\ actions ([OPark] ++ LDeadline :: timeout_trace) = l :: timeout_actions First)
  /\ (List.length ([OPark] ++ LDeadline :: timeout_trace) <= 17)%nat.
Proof.
  destruct (Get_login_deadline_not_found exampleHandshake [OPark] timeout_trace
              (mkHState (pc_returned "" "" (Some errCredentialsNotFound)) true
                 AuthDone None (SinkDone None) ""))
    as (_ & R & _ & B).
  - unfold initial, timeout_trace. simpl.
    eapply exec_cons; [apply step_select1_park|].
    eapply exec_cons; [apply step_deadline|]. simpl.
    eapply exec_cons; [apply step_timeout|].
    eapply exec_cons;
      [apply step_auth_exit with (why := ExitCancelled);
       [discriminate | reflexivity]|].
    eapply exec_cons; [apply step_timeout_auth|].
    eapply exec_cons;
      [apply step_sink_exit with (why := ExitCancelled); reflexivity|]. simpl.
    eapply exec_cons; [apply step_timeout_sink|].
    eapply exec_cons; [apply step_return|].
    apply exec_nil.
  - intros token [H | []]. discriminate H.
  - left. left. reflexivity.
  - split; [|exact B].
    exact (proj1 (proj2 (R "" "" (Some errCredentialsNotFound) eq_refl))).
Defined.

(** C3 as stated fails when the deadline passes, and the Login Task then
    writes its token, before [Get] has entered its first [select]: the
    deadline has passed with no token written, and [Get] takes the token
    and returns the credentials. *)
Lemma Get_late_token_returns_credentials :
  ~ (forall (tr1 tr2 : list label) (s : HState),
       exec "secret/docker" (initial exampleHandshake) (tr1 ++ LDeadline :: tr2) s ->
       (forall token, ~ In (LAuthOutput token) tr1) ->
       forall u p e,
         pc s = pc_returned u p e ->
         (u, p, e) = ("", "", Some errCredentialsNotFound)).
Proof.
  intros H.
  specialize (H [] (tl (late_token_trace "secret/docker" "s.fresh" exampleCredentials))
                (mkHState (pc_returned "docker" "hunter2" None) true AuthDone None
                   (SinkDone (Some "s.fresh")) "s.fresh")).
  assert (E : ("docker", "hunter2", @None error)
              = ("", "", Some errCredentialsNotFound)).
  { apply H.
    - unfold initial, late_token_trace. simpl.
      eapply exec_cons; [apply step_deadline|]. simpl.
      eapply exec_cons; [apply step_auth_output|]. simpl.
      eapply exec_cons; [apply step_select1_output|].
      eapply exec_cons; [apply step_got_token|].
      eapply exec_cons; [apply step_handoff|].
      eapply exec_cons; [apply step_sink_persist|]. simpl.
      eapply exec_cons; [apply step_select2_sink|].
      eapply exec_cons; [apply step_sink_done|].
      eapply exec_cons; [apply step_cancel|].
      eapply exec_cons;
        [apply step_auth_exit with (why := ExitCancelled);
         [discriminate | reflexivity]|].
      eapply exec_cons; [apply step_wait_auth|].
      eapply exec_cons; [apply step_set_token|].
      eapply exec_cons; [apply (step_get_creds_ok _ _ _ _ _ _ exampleCredentials)|].
      eapply exec_cons; [apply step_return|].
      apply exec_nil.
    - intros token [].
    - reflexivity. }
  discriminate E.
Qed.

(** C8, where the code breaks it: whenever [Get] gets as far as the
    handshake, it can block for ever in the send of line 209, which (unlike
    the two [select]s around it) does not watch the deadline.  In the run
    given the login hands its token over, the deadline passes, and the
    Sink-Write Task ends on the cancelled context before it has received
    anything; nothing can happen any more and [Get] has not returned. *)
Theorem Get_can_block_on_send
  (env : Env) (serverURL : string) (st st' : St env) (hs : Handshake) :
  Get env serverURL st = (st', Spawns hs) ->
  Get_behaves env serverURL st BBlocks
  /\ exists s,
       exec (hs_secret hs) (initial hs) (blocking_trace "s.fresh") s
       /\ terminal (hs_secret hs) s
       /\ pc s = pc_send "s.fresh".
Proof.
  intros G.
  pose proof (exec_blocking_trace (hs_secret hs) hs "s.fresh") as E.
  pose proof (blocked_send_terminal (hs_secret hs) "s.fresh" None None
                (c_token (hs_client hs))) as T.
  split.
  - eapply behaves_handshake_blocks; [exact G | exact E | exact T |].
    simpl. discriminate.
  - eexists. split; [exact E|]. split; [exact T | reflexivity].
Qed.

(** The blocking run for C8, after two cached tokens the secret cannot be
    read with. *)
Lemma Get_can_block_on_send_witness :
  let env := exampleEnv true ["a"; "c"] "b" true in
  Get_behaves env "registry.example.com" (start env (NewHelper None) tt) BBlocks.
Proof.
  cbv zeta.
  eapply (fun st' hs G =>
            proj1 (Get_can_block_on_send (exampleEnv true ["a"; "c"] "b" true)
                     "registry.example.com"
                     (start (exampleEnv true ["a"; "c"] "b" true) (NewHelper None) tt)
                     st' hs G)).
  lazy. reflexivity.
Defined.

(** X12: When the deadline finds [Get] blocked in its second [select], [Get]
    does what the first [select] does on the deadline: no exchange, both
    completion signals, "credentials not found". *)
Lemma Get_sink_deadline_not_found
  (secret token : string) (s : HState) (tr : list label) (s' : HState) :
  pc s = pc_select2 token true ->
  exec secret s (LDeadline :: tr) s' ->
  exchanged tr = []
  /\ (forall u p e,
        pc s' = pc_returned u p e ->
        (u, p, e) = ("", "", Some errCredentialsNotFound)
        /\ actions tr = timeout_actions Second
        /\ auth s' = AuthDone /\ is_done (sink s') = true)
  /\ (terminal secret s' ->
      pc s' = pc_returned "" "" (Some errCredentialsNotFound)).
Proof.
  intros P E. inversion E as [|a l s1 tr0 b Hs E1]; subst.
  assert (T : timed_out Second s1 []).
  { inversion Hs; subst. simpl in P. subst. split; simpl; auto. }
  pose proof (timed_out_exec _ _ _ _ _ E1 [] T) as T1. simpl in T1.
  split; [|split].
  - rewrite <- exchanged_actions. eapply timed_out_no_exchange. exact T1.
  - intros u p e P'. destruct T1 as [_ I]. rewrite P' in I. tauto.
  - intros Tm. eapply timed_out_terminal; eassumption.
Qed.

(** C4, where the code breaks it: [Get] can read the secret with a fresh
    token that was never written to the sinks.  In the run given the
    deadline passes after the token was handed over, the Sink-Write Task
    ends on the cancelled context without writing it, and [Get], entering
    its second [select] with both channels ready, takes [ss.DoneCh]: it
    logs a successful write, exchanges the token and returns the
    credentials. *)
Theorem Get_can_exchange_unpersisted_token
  (hs : Handshake) (token : string) (creds : Credentials) :
  exists s,
    exec (hs_secret hs) (initial hs)
      (unpersisted_trace (hs_secret hs) token creds) s
    /\ In LDeadline (unpersisted_trace (hs_secret hs) token creds)
    /\ (forall t, ~ In (LSinkPersist t) (unpersisted_trace (hs_secret hs) token creds))
    /\ sink s = SinkDone None
    /\ exchanged (unpersisted_trace (hs_secret hs) token creds) = [token]
    /\ pc s = pc_returned (Username creds) (Password creds) None.
Proof.
  eexists. split; [|split; [|split; [|split; [|split]]]].
  - unfold initial, unpersisted_trace.
    eapply exec_cons; [apply step_select1_park|].
    eapply exec_cons; [apply step_auth_output|]. simpl.
    eapply exec_cons; [apply step_got_token|].
    eapply exec_cons; [apply step_handoff|].
    eapply exec_cons; [apply step_deadline|]. simpl.
    eapply exec_cons;
      [apply step_sink_exit with (why := ExitCancelled); reflexivity|]. simpl.
    eapply exec_cons; [apply step_select2_sink|].
    eapply exec_cons; [apply step_sink_done|].
    eapply exec_cons; [apply step_cancel|].
    eapply exec_cons;
      [apply step_auth_exit with (why := ExitCancelled);
       [discriminate | reflexivity]|].
    eapply exec_cons; [apply step_wait_auth|].
    eapply exec_cons; [apply step_set_token|].
    eapply exec_cons; [apply step_get_creds_ok|].
    eapply exec_cons; [apply step_return|].
    apply exec_nil.
  - simpl. tauto.
  - intros t H. simpl in H.
    repeat (destruct H as [H|H]; [discriminate H|]). exact H.
  - reflexivity.
  - reflexivity.
  - reflexivity.
Qed.



(* ================================================================== *)
(** * More on the cached token *)
(* ================================================================== *)

Section TokenLife.

Import cache.


(** X2: The life of a renewable token whose expiration timestamp
    [time.Unix] represents has four phases: up to the start of the grace
    period (600 s before the timestamp) it is neither eligible for renewal
    nor expired; inside the grace period it is eligible and not expired;
    at the instant of its expiration it is neither; after it, it is
    expired and not eligible. *)
Theorem renewable_token_phases (t : CachedToken) (now : time.Time) :
  Renewable t = true ->
  time.inRange (Expiration t) ->
  (now <= (Expiration t - 600) * time.Second
   /\ EligibleForRenewal t now = false /\ Expired t now = false)
  \/ ((Expiration t - 600) * time.Second < now < Expiration t * time.Second
      /\ EligibleForRenewal t now = true /\ Expired t now = false)
  \/ (now = Expiration t * time.Second
      /\ EligibleForRenewal t now = false /\ Expired t now = false)
  \/ (Expiration t * time.Second < now
      /\ EligibleForRenewal t now = false /\ Expired t now = true).
Proof.
  intros R I. unfold EligibleForRenewal, Expired. cbv zeta.
  rewrite window_start_eq, R. unfold windowStart, GracePeriodSeconds.
  rewrite (Unix_inRange _ I). unfold time.Before, time.After, time.Second.
  destruct (Z.ltb_spec now (Expiration t * 1000000000));
    destruct (Z.ltb_spec (Expiration t * 1000000000 - 600 * 1000000000) now);
    destruct (Z.ltb_spec (Expiration t * 1000000000) now);
    simpl;
    first [ left; split; [lia | split; reflexivity]
          | right; left; split; [lia | split; reflexivity]
          | right; right; left; split; [lia | split; reflexivity]
          | right; right; right; split; [lia | split; reflexivity]
          | lia ].
Qed.

(** X18: A token whose expiration timestamp lies beyond what [time.Unix]
    represents (above [2^63 - 1 - unixToInternal]) is reported expired at
    every instant since the epoch: the [int64] sum in [time.Unix] wraps
    to an instant far in the past. *)
Theorem Expired_beyond_range (t : CachedToken) (now : time.Time) :
  2 ^ 63 - time.unixToInternal <= Expiration t <= 2 ^ 63 - 1 ->
  time.Unix 0 0 <= now ->
  Expired t now = true.
Proof.
  intros R N. unfold Expired, time.After. apply Z.ltb_lt.
  eapply Z.lt_le_trans; [|exact N].
  unfold time.Unix. cbn [Z.ltb Z.leb Z.compare orb time.Second].
  assert (W : time.wrap64 (Expiration t + time.unixToInternal)
              = Expiration t + time.unixToInternal - 2 ^ 64).
  { unfold time.wrap64.
    assert (M : (Expiration t + time.unixToInternal + 2 ^ 63) mod 2 ^ 64
                = Expiration t + time.unixToInternal + 2 ^ 63 - 2 ^ 64).
    { symmetry. apply Z.mod_unique with (q := 1).
      - left. change time.unixToInternal with 62135596800 in *. lia.
      - lia. }
    rewrite M. lia. }
  rewrite W.
  rewrite (wrap64_small (0 + time.unixToInternal))
    by (vm_compute; split; discriminate).
  change time.unixToInternal with 62135596800 in *.
  unfold time.Second. lia.
Qed.

End TokenLife.


Lemma renewable_token_phases_witness :
  let t := cache.mkCachedToken "s.token" 1000 true "approle" in
  cache.EligibleForRenewal t (time.Unix 1000 0) = false
  /\ cache.Expired t (time.Unix 1000 0) = false.
Proof.
  cbv zeta.
  destruct (renewable_token_phases
              (cache.mkCachedToken "s.token" 1000 true "approle")
              (time.Unix 1000 0) eq_refl
              ltac:(vm_compute; split; discriminate))
    as [(_ & E & X) | [(_ & E & X) | [(_ & E & X) | (_ & E & X)]]];
    split; solve [assumption | reflexivity].
Defined.

(** A token with the largest [int64] as its expiration, at a clock
    reading of October 2018. *)
Lemma Expired_beyond_range_witness :
  cache.Expired (cache.mkCachedToken "s.token" (2 ^ 63 - 1) false "approle")
    (time.Unix 1540000000 0) = true.
Proof.
  apply (Expired_beyond_range
           (cache.mkCachedToken "s.token" (2 ^ 63 - 1) false "approle")
           (time.Unix 1540000000 0)).
  - vm_compute. split; discriminate.
  - vm_compute. discriminate.
Defined.

(* ================================================================== *)
(** * More on the sequential part of the helper *)
(* ================================================================== *)

Section GetMore.

Variable env : Env.

(** ** [buildSinks] *)

Lemma sinksMade_snoc (evs : list event) (e : event) :
  sinksMade (evs ++ [e])
  = (sinksMade evs + match e with EvNewFileSink => 1 | _ => 0 end)%nat.
Proof.
  induction evs as [|x evs IH]; simpl.
  - destruct e; reflexivity.
  - destruct x; simpl; rewrite IH; reflexivity.
Qed.

Lemma buildSinks_from_ok (ss : list Sink) :
  forall (acc : list SinkConfig) (st st' : St env) (sinks : list SinkConfig),
    buildSinks_from env acc ss st = (st', Next (ok sinks)) ->
    Forall (fun sc => s_Type sc = "file") ss
    /\ (exists made,
          sinks = acc ++ made
          /\ map sinkConfigSettings made = map sinkSettings ss
          /\ Forall (fun c => sc_Sink c <> None) made)
    /\ self st' = self st
    /\ sinksMade (events st') = (sinksMade (events st) + List.length ss)%nat.
Proof.
  induction ss as [|sc ss IH]; intros acc st st' sinks H; simpl in H.
  - inversion H; subst. split; [constructor|]. split.
    + exists []. rewrite app_nil_r. repeat split; constructor.
    + split; [reflexivity | simpl; lia].
  - destruct (String.eqb_spec (s_Type sc) "file") as [T|T];
      [|inversion H].
    unfold bind at 1 in H. unfold withLogger at 1 in H.
    destruct (logger (self st)) as [l|] eqn:L; [|discriminate].
    unfold withClient at 1 in H.
    destruct (client (self st)) as [c|] eqn:C; [|discriminate].
    unfold ret at 1 in H. unfold bind at 1 in H. unfold call at 1 in H.
    destruct (NewFileSink env _ (world st)) as [w [s|e]] eqn:N;
      [|inversion H].
    apply IH in H. destruct H as (F & (made & E & S & K) & Hs & Hm).
    simpl in Hs, Hm. split; [constructor; assumption|]. split.
    + eexists (_ :: made). rewrite <- app_assoc in E. simpl in E.
      split; [exact E|]. split.
      * simpl. rewrite S. reflexivity.
      * constructor; [simpl; discriminate | exact K].
    + split; [exact Hs|]. rewrite Hm, sinksMade_snoc. simpl. lia.
Qed.

(** X3: When [buildSinks] hands back sinks, every configured sink was of type
    "file", one file sink was made for each of them, and the sinks handed
    back are those of the configuration, in its order, each with the
    settings of its configuration and with the sink that was made. *)
Theorem buildSinks_ok
  (ss : list Sink) (st st' : St env) (sinks : list SinkConfig) :
  buildSinks env ss st = (st', Next (ok sinks)) ->
  Forall (fun sc => s_Type sc = "file") ss
  /\ map sinkConfigSettings sinks = map sinkSettings ss
  /\ Forall (fun c => sc_Sink c <> None) sinks
  /\ List.length sinks = List.length ss
  /\ sinksMade (events st') = (sinksMade (events st) + List.length ss)%nat
  /\ self st' = self st.
Proof.
  intros H. apply buildSinks_from_ok in H.
  destruct H as (F & (made & E & S & K) & Hs & Hm). simpl in E. subst made.
  repeat split; try assumption.
  rewrite <- (length_map sinkConfigSettings), S, length_map. reflexivity.
Qed.

Lemma buildSinks_from_unknown_type (sc : Sink) (post : list Sink) (pre : list Sink) :
  forall (acc : list SinkConfig) (st : St env) l c,
    logger (self st) = Some l ->
    client (self st) = Some c ->
    Forall (fun s => s_Type s = "file") pre ->
    s_Type sc <> "file" ->
    (forall cfg w, failed (snd (NewFileSink env cfg w)) = false) ->
    exists st',
      buildSinks_from env acc (pre ++ sc :: post) st
      = (st', Next (err (errorString ("Unknown sink type " ++ Quote env (s_Type sc)))))
      /\ sinksMade (events st') = (sinksMade (events st) + List.length pre)%nat
      /\ self st' = self st.
Proof.
  induction pre as [|s pre IH]; intros acc st l c L C F T N; simpl.
  - destruct (String.eqb_spec (s_Type sc) "file") as [E|_]; [contradiction|].
    exists st. unfold ret. repeat split. lia.
  - inversion F as [|x xs Fs Fpre]; subst.
    rewrite Fs. simpl.
    unfold bind at 1. unfold withLogger at 1. rewrite L.
    unfold withClient at 1. rewrite C. unfold ret at 1.
    unfold bind at 1. unfold call at 1.
    match goal with
    | |- context [NewFileSink env ?cfg (world st)] =>
        pose proof (N cfg (world st)) as Nok;
        destruct (NewFileSink env cfg (world st)) as [w [h|e]]
    end; [|discriminate Nok].
    match goal with
    | |- context [buildSinks_from env ?acc' _ ?st1] =>
        destruct (IH acc' st1 l c L C Fpre T N) as (st' & E & M & S)
    end.
    exists st'. split; [exact E|]. simpl in M, S. split; [|exact S].
    rewrite M, sinksMade_snoc. simpl. lia.
Qed.

(** X4: When a configured sink has a type other than "file" (and the file
    sinks before it can be made), [buildSinks] fails with "Unknown sink
    type" followed by the type as the verb [%q] writes it; the sinks
    before it have been made, none after it is. *)
Theorem buildSinks_unknown_type
  (pre : list Sink) (sc : Sink) (post : list Sink) (st : St env) l c :
  logger (self st) = Some l ->
  client (self st) = Some c ->
  Forall (fun s => s_Type s = "file") pre ->
  s_Type sc <> "file" ->
  (forall cfg w, failed (snd (NewFileSink env cfg w)) = false) ->
  exists st',
    buildSinks env (pre ++ sc :: post) st
    = (st', Next (err (errorString ("Unknown sink type " ++ Quote env (s_Type sc)))))
    /\ sinksMade (events st') = (sinksMade (events st) + List.length pre)%nat
    /\ self st' = self st.
Proof. apply buildSinks_from_unknown_type. Qed.


(** ** [buildMethod] *)

Lemma methodKind_None (type : string) :
  methodKind type = None <-> ~ In type supportedMethods.
Proof.
  unfold methodKind, supportedMethods.
  repeat match goal with
         | |- context [String.eqb type ?s] =>
             destruct (String.eqb_spec type s)
         end; simpl; split; intros H; try discriminate; try reflexivity;
    try (exfalso; apply H; subst; tauto).
  intros F. intuition congruence.
Qed.

Lemma methodKind_Some (type : string) (k : MethodKind) :
  methodKind type = Some k -> In type supportedMethods.
Proof.
  intros H. destruct (in_dec string_dec type supportedMethods) as [I|N];
    [exact I|]. apply methodKind_None in N. congruence.
Qed.

(** X5: A type that is none of the seven the [switch] knows makes
    [buildMethod] fail with "Unknown auth method" followed by the type as
    the verb [%q] writes it, without calling any constructor: the state
    is left as it was. *)
Theorem buildMethod_unknown_type (config : Method) (st : St env) l :
  logger (self st) = Some l ->
  ~ In (m_Type config) supportedMethods ->
  buildMethod env config st
  = (st, Next (err (errorString ("Unknown auth method " ++ Quote env (m_Type config))))).
Proof.
  intros L N. apply methodKind_None in N. unfold buildMethod.
  unfold bind at 1. unfold withLogger. rewrite L. unfold ret at 1.
  rewrite N. reflexivity.
Qed.

(** X6: When [buildMethod] hands back a method, the configured type is one of
    the seven, the method is of the kind that goes with the type, and
    exactly the constructor of that kind was called, once. *)
Theorem buildMethod_ok (config : Method) (st st' : St env) (method : AuthMethod) :
  buildMethod env config st = (st', Next (ok method)) ->
  In (m_Type config) supportedMethods
  /\ methodKind (m_Type config) = Some (am_kind method)
  /\ events st' = events st ++ [EvNewAuthMethod (am_kind method)]
  /\ self st' = self st.
Proof.
  unfold buildMethod. intros H.
  unfold bind at 1 in H. unfold withLogger in H.
  destruct (logger (self st)) as [l|]; [|discriminate].
  unfold ret at 1 in H.
  destruct (methodKind (m_Type config)) as [k|] eqn:K; [|inversion H].
  unfold bind, call in H.
  destruct (NewAuthMethod env k _ (world st)) as [w [h|e]]; inversion H; subst.
  simpl. split; [eapply methodKind_Some; exact K|]. repeat split.
Qed.

(** ** The renewals *)

Lemma renewals_app (a b : list event) :
  renewals (a ++ b) = renewals a ++ renewals b.
Proof.
  induction a as [|e a IH]; simpl; [reflexivity|].
  destruct e; simpl; rewrite ?IH; reflexivity.
Qed.

Lemma Get_renew_cons token rest (st : St env) l c :
  logger (self st) = Some l ->
  client (self st) = Some c ->
  exists st1,
    Get_renew env (token :: rest) st = Get_renew env rest st1
    /\ self st1 = self st
    /\ renewals (events st1) = renewals (events st) ++ [token]
    /\ exchanges (events st1) = exchanges (events st).
Proof.
  intros L C. simpl.
  unfold bind at 1. unfold withClient at 1. rewrite C. unfold call at 1.
  destruct (RenewTokenAsSelf env c token 0 (world st)) as [w [e|]].
  - unfold bind at 1. simpl. unfold log, withLogger. simpl. rewrite L.
    unfold emit. simpl. eexists. split; [reflexivity|]. simpl.
    split; [reflexivity|]. rewrite !renewals_app, !exchanges_app. simpl.
    rewrite !app_nil_r. split; reflexivity.
  - unfold bind, ifErr, ret.
    eexists. split; [reflexivity|]. simpl.
    split; [reflexivity|]. rewrite renewals_app, exchanges_app. simpl.
    rewrite app_nil_r. split; reflexivity.
Qed.

(** X7: [Get] tries to renew every cached token, once each and in their
    order, whatever the renewals return: a failed renewal is logged and
    the next token is renewed.  No token is exchanged meanwhile and the
    client keeps the token it had. *)
Theorem Get_renew_all (tokens : list string) :
  forall (st : St env) l c,
    logger (self st) = Some l ->
    client (self st) = Some c ->
    exists st',
      Get_renew env tokens st = (st', Next tt)
      /\ renewals (events st') = renewals (events st) ++ tokens
      /\ exchanges (events st') = exchanges (events st)
      /\ self st' = self st.
Proof.
  induction tokens as [|token rest IH]; intros st l c L C.
  - exists st. simpl. rewrite app_nil_r. repeat split.
  - destruct (Get_renew_cons token rest st l c L C) as (st1 & E & S & R & X).
    rewrite <- S in L, C.
    destruct (IH st1 l c L C) as (st' & E' & R' & X' & S').
    exists st'. rewrite E. split; [exact E'|].
    rewrite R', R, <- app_assoc, X', X, S', S. repeat split.
Qed.


(** ** An unusable configuration *)

(** X8: With a logger in place: when the configuration cannot be loaded, is
    nil, has no [auto_auth] block, or has no string under "secret" in the
    method's configuration, [Get] logs one error and returns "credentials
    not found"; it has read the environment variable and the
    configuration file (the one named by the variable, or the default
    one when the variable is empty) and done nothing else: no client is
    made, no token read, renewed or exchanged, no login started. *)
Theorem Get_invalid_configuration_not_found
  (serverURL : string) (st : St env) (l : Logger) (w' : World env)
  (config : option Config) (e : option error) :
  let f := Getenv env envConfigFile (world st) in
  let configFile := if String.eqb f "" then defaultConfigFile else f in
  logger (self st) = Some l ->
  LoadConfig env configFile (Some l) (world st) = (w', (config, e)) ->
  (e <> None
   \/ config = None
   \/ (exists c, config = Some c /\ cfg_AutoAuth c = None)
   \/ (exists c a, config = Some c /\ cfg_AutoAuth c = Some a
                   /\ forall s, lookup "secret" (m_Config (aa_Method a))
                                <> Some (anyString s))) ->
  exists msg,
    Get env serverURL st
    = (mkSt w' (self st)
         (events st
          ++ [EvGetenv envConfigFile; EvLoadConfig configFile;
              EvLog (lg_Name l) ErrorLevel msg]
          ++ map EvClose (deferred st))
         [],
       Returns "" "" (Some errCredentialsNotFound)).
Proof.
  intros f configFile L Hload Hbad.
  assert (G : exists msg,
             Get_config env st
             = (mkSt w' (self st)
                  (events st ++ [EvGetenv envConfigFile; EvLoadConfig configFile;
                                 EvLog (lg_Name l) ErrorLevel msg])
                  (deferred st),
                Return "" "" (Some errCredentialsNotFound))).
  { unfold Get_config. unfold bind at 1. unfold call at 1. fold f. fold configFile.
    unfold bind at 1. unfold call at 1. cbn [self world events deferred].
    rewrite L, Hload. cbn [self world events deferred].
    destruct e as [e0|].
    - eexists. unfold bind, ifErr, log, withLogger, emit, notFound, returns.
      cbn [self world events deferred]. rewrite L.
      rewrite <- !app_assoc. reflexivity.
    - destruct config as [c|].
      + destruct (cfg_AutoAuth c) as [a|] eqn:A.
        * destruct (lookup "secret" (m_Config (aa_Method a))) as [v|] eqn:S.
          -- destruct v as [s|n|b].
             ++ exfalso. destruct Hbad as [H | [H | [(c0 & H & H') | (c0 & a0 & H & H' & H'')]]];
                  try congruence.
             ++ eexists. unfold bind, ifErr, ret, log, withLogger, emit, notFound, returns.
                cbn [self world events deferred]. rewrite A.
                cbn [self world events deferred]. rewrite S.
                cbn [self world events deferred]. rewrite L.
                rewrite <- !app_assoc. reflexivity.
             ++ eexists. unfold bind, ifErr, ret, log, withLogger, emit, notFound, returns.
                cbn [self world events deferred]. rewrite A.
                cbn [self world events deferred]. rewrite S.
                cbn [self world events deferred]. rewrite L.
                rewrite <- !app_assoc. reflexivity.
          -- eexists. unfold bind, ifErr, ret, log, withLogger, emit, notFound, returns.
             cbn [self world events deferred]. rewrite A.
                cbn [self world events deferred]. rewrite S.
                cbn [self world events deferred]. rewrite L.
             rewrite <- !app_assoc. reflexivity.
        * eexists. unfold bind, ifErr, ret, log, withLogger, emit, notFound, returns.
          cbn [self world events deferred]. rewrite A.
          cbn [self world events deferred]. rewrite L.
          rewrite <- !app_assoc. reflexivity.
      + eexists. unfold bind, ifErr, ret, log, withLogger, emit, notFound, returns.
        cbn [self world events deferred]. rewrite L.
        rewrite <- !app_assoc. reflexivity. }
  destruct G as (msg & G). exists msg.
  assert (GL : Get_logger env st = (st, Next tt)).
  { unfold Get_logger. rewrite L. reflexivity. }
  unfold Get, Get_body, Get_prepare.
  rewrite (bind_Return _ _ _ _ _ _ _ _
             (eq_trans (bind_Next _ _ _ _ _ _ GL) (bind_Return _ _ _ _ _ _ _ _ G))).
  unfold runDeferred. cbn [self world events deferred].
  rewrite <- !app_assoc. reflexivity.
Qed.


(** ** No Vault client *)

(** X9: When the helper was given no client and none can be made, [Get]
    (having a logger and a usable configuration) logs one error and
    returns "credentials not found": nothing was asked of Vault. *)
Theorem Get_client_failure_not_found
  (serverURL : string) (st : St env) (l : Logger) (w1 w2 : World env)
  (config : Config) (autoAuth : AutoAuth) (secret : string) (e : error) :
  let f := Getenv env envConfigFile (world st) in
  let configFile := if String.eqb f "" then defaultConfigFile else f in
  logger (self st) = Some l ->
  client (self st) = None ->
  LoadConfig env configFile (Some l) (world st) = (w1, (Some config, None)) ->
  cfg_AutoAuth config = Some autoAuth ->
  lookup "secret" (m_Config (aa_Method autoAuth)) = Some (anyString secret) ->
  NewClient env w1 = (w2, err e) ->
    Get env serverURL st
    = (mkSt w2 (self st)
         (events st
          ++ [EvGetenv envConfigFile; EvLoadConfig configFile; EvNewClient;
              EvLog (lg_Name l) ErrorLevel "Error creating new Vault API client"]
          ++ map EvClose (deferred st))
         [],
       Returns "" "" (Some errCredentialsNotFound)).
Proof.
  intros f configFile L C Hload A S N.
  set (st1 := mkSt w1 (self st)
                (events st ++ [EvGetenv envConfigFile; EvLoadConfig configFile])
                (deferred st)).
  assert (GL : Get_logger env st = (st, Next tt)).
  { unfold Get_logger. rewrite L. reflexivity. }
  assert (G : Get_config env st = (st1, Next (autoAuth, secret))).
  { unfold Get_config. unfold bind at 1. unfold call at 1. fold f. fold configFile.
    unfold bind at 1. unfold call at 1. cbn [self world events deferred].
    rewrite L, Hload. cbn [self world events deferred].
    unfold bind, ifErr, ret. rewrite A. cbn [self world events deferred].
    rewrite S. unfold st1. rewrite <- !app_assoc. reflexivity. }
  assert (GC : Get_client env st1
               = (mkSt w2 (self st)
                    (events st1 ++ [EvNewClient; EvLog (lg_Name l) ErrorLevel
                                     "Error creating new Vault API client"])
                    (deferred st),
                  Return "" "" (Some errCredentialsNotFound))).
  { unfold Get_client, st1. cbn [self world events deferred].
    rewrite C. unfold bind at 1. unfold call at 1.
    cbn [self world events deferred]. rewrite N. cbn [self world events deferred].
    unfold bind, log, withLogger, emit, notFound, returns.
    cbn [self world events deferred]. rewrite L.
    rewrite <- !app_assoc. reflexivity. }
  unfold Get, Get_body, Get_prepare.
  rewrite (bind_Return _ _ _ _ _ _ _ _
             (eq_trans (bind_Next _ _ _ _ _ _ GL)
                (eq_trans (bind_Next _ _ _ _ _ _ G)
                   (bind_Return _ _ _ _ _ _ _ _ GC)))).
  unfold runDeferred, st1. cbn [self world events deferred].
  rewrite <- !app_assoc. reflexivity.
Qed.

End GetMore.

(* ================================================================== *)
(** * The log file that [Get] opens *)
(* ================================================================== *)

Section GetDeferred.

Variable env : Env.

Lemma keeps_open_ret {A} (a : A) : keeps_open (@ret env A a).
Proof.
  intros st st' r H. inversion H; subst. split; [reflexivity|].
  exists []. rewrite app_nil_r. auto.
Qed.

Lemma keeps_open_returns {A} u p e : keeps_open (@returns env A u p e).
Proof.
  intros st st' r H. inversion H; subst. split; [reflexivity|].
  exists []. rewrite app_nil_r. auto.
Qed.

Lemma keeps_open_notFound {A} : keeps_open (@notFound env A).
Proof. apply keeps_open_returns. Qed.

Lemma keeps_open_bind {A B} (m : M env A) (k : A -> M env B) :
  keeps_open m -> (forall a, keeps_open (k a)) -> keeps_open (bind m k).
Proof.
  intros Hm Hk st st' r H. unfold bind in H.
  destruct (m st) as [st0 [a|u p e|]] eqn:E;
    pose proof (Hm _ _ _ E) as (X & evs & Y & Z).
  - destruct (Hk a _ _ _ H) as (X' & evs' & Y' & Z').
    split; [congruence|]. exists (evs ++ evs').
    rewrite Y', Y, app_assoc, forallb_app, Z, Z'. auto.
  - inversion H; subst. split; [exact X|]. exists evs. auto.
  - inversion H; subst. split; [exact X|]. exists evs. auto.
Qed.

Lemma keeps_open_emit (e : event) : notClose e = true -> keeps_open (@emit env e).
Proof.
  intros He st st' r H. inversion H; subst. simpl. split; [reflexivity|].
  exists [e]. simpl. rewrite He. auto.
Qed.

Lemma keeps_open_call {A} (op : World env -> World env * A) (ev : A -> event) :
  (forall a, notClose (ev a) = true) -> keeps_open (call op ev).
Proof.
  intros He st st' r H. unfold call in H.
  destruct (op (world st)) as [w a]. inversion H; subst. simpl.
  split; [reflexivity|]. exists [ev a]. simpl. rewrite He. auto.
Qed.

Lemma keeps_open_setLogger (l : Logger) : keeps_open (@setLogger env l).
Proof.
  intros st st' r H. inversion H; subst. simpl. split; [reflexivity|].
  exists []. rewrite app_nil_r. auto.
Qed.

Lemma keeps_open_setClient (c : Client) : keeps_open (@setClient env c).
Proof.
  intros st st' r H. inversion H; subst. simpl. split; [reflexivity|].
  exists []. rewrite app_nil_r. auto.
Qed.

Lemma keeps_open_withLogger {A} (k : Logger -> M env A) :
  (forall l, keeps_open (k l)) -> keeps_open (withLogger k).
Proof.
  intros Hk st st' r H. unfold withLogger in H.
  destruct (logger (self st)) as [l|].
  - exact (Hk l _ _ _ H).
  - inversion H; subst. split; [reflexivity|].
    exists []. rewrite app_nil_r. auto.
Qed.

Lemma keeps_open_withClient {A} (k : Client -> M env A) :
  (forall c, keeps_open (k c)) -> keeps_open (withClient k).
Proof.
  intros Hk st st' r H. unfold withClient in H.
  destruct (client (self st)) as [c|].
  - exact (Hk c _ _ _ H).
  - inversion H; subst. split; [reflexivity|].
    exists []. rewrite app_nil_r. auto.
Qed.

Lemma keeps_open_log lvl msg : keeps_open (@log env lvl msg).
Proof.
  apply keeps_open_withLogger. intros l. apply keeps_open_emit. reflexivity.
Qed.

Lemma keeps_open_ifErr e (body : M env unit) :
  keeps_open body -> keeps_open (ifErr e body).
Proof. destruct e; simpl; auto using keeps_open_ret. Qed.

Lemma keeps_open_state {A} (f : St env -> M env A) :
  (forall s, keeps_open (f s)) -> keeps_open (fun st => f st st).
Proof. intros Hf st st' r H. exact (Hf st _ _ _ H). Qed.

Ltac keeps_open_step :=
  first
    [ apply keeps_open_bind; [|intros ?]
    | apply keeps_open_ret | apply keeps_open_notFound | apply keeps_open_returns
    | apply keeps_open_log
    | apply keeps_open_setLogger | apply keeps_open_setClient
    | apply keeps_open_ifErr
    | apply keeps_open_withLogger; intros ?
    | apply keeps_open_withClient; intros ?
    | apply keeps_open_emit; reflexivity
    | apply keeps_open_call; intros ?; reflexivity ].

Ltac keeps_open_auto :=
  repeat (keeps_open_step
          || match goal with
             | |- keeps_open (match ?x with _ => _ end) => destruct x
             | |- keeps_open (if ?x then _ else _) => destruct x
             | |- keeps_open (let (_, _) := ?x in _) => destruct x
             end).

Lemma keeps_open_Get_config : keeps_open (Get_config env).
Proof.
  unfold Get_config. apply keeps_open_bind; [keeps_open_auto|intros f].
  apply keeps_open_bind.
  - apply (keeps_open_state
             (fun s => call (LoadConfig env _ (logger (self s))) _)).
    intros s. apply keeps_open_call. reflexivity.
  - intros [config e]. keeps_open_auto.
Qed.

Lemma keeps_open_Get_client : keeps_open (Get_client env).
Proof.
  intros st st' r H. unfold Get_client in H.
  destruct (client (self st)).
  - exact (keeps_open_ret _ _ _ _ H).
  - revert H.
    match goal with
    | |- ?m st = _ -> _ =>
        let K := fresh "K" in
        assert (K : keeps_open m) by keeps_open_auto; exact (K _ _ _)
    end.
Qed.

Lemma keeps_open_Get_cachedTokens aa : keeps_open (Get_cachedTokens env aa).
Proof. unfold Get_cachedTokens. keeps_open_auto. Qed.

Lemma keeps_open_Get_renew toks : keeps_open (Get_renew env toks).
Proof. induction toks; simpl; keeps_open_auto. exact IHtoks. Qed.

Lemma keeps_open_Get_useTokens secret toks :
  keeps_open (Get_useTokens env secret toks).
Proof.
  induction toks; simpl; unfold setToken, getCredentials; keeps_open_auto.
  exact IHtoks.
Qed.

Lemma keeps_open_buildSinks_from ss :
  forall sinks, keeps_open (buildSinks_from env sinks ss).
Proof.
  induction ss as [|sc rest IH]; intros sinks; simpl; keeps_open_auto.
  apply IH.
Qed.

Lemma keeps_open_buildMethod config : keeps_open (buildMethod env config).
Proof. unfold buildMethod. keeps_open_auto. Qed.

Lemma keeps_open_Get_startLogin aa secret :
  keeps_open (Get_startLogin env aa secret).
Proof.
  unfold Get_startLogin, clearToken, buildSinks.
  apply keeps_open_bind; [keeps_open_auto|intros _].
  apply keeps_open_bind; [apply keeps_open_buildSinks_from|intros sinks].
  apply keeps_open_bind; [keeps_open_auto|intros sinks'].
  apply keeps_open_bind; [apply keeps_open_buildMethod|intros method].
  keeps_open_auto.
Qed.

Lemma bind_bind_Next {A B C} (m : M env A) (k1 : A -> M env B) (k2 : B -> M env C)
  st st1 a :
  m st = (st1, Next a) -> bind (bind m k1) k2 st = bind (k1 a) k2 st1.
Proof. unfold bind. intros ->. reflexivity. Qed.

(** Everything in [Get] after the logger is set up. *)
Lemma keeps_open_Get_rest :
  keeps_open
    (bind (bind (Get_config env)
             (fun x => match x with
                       | (autoAuth, secret) =>
                           bind (Get_client env) (fun _ =>
                           bind (Get_cachedTokens env autoAuth) (fun cachedTokens =>
                           bind (Get_renew env cachedTokens) (fun _ =>
                           ret (autoAuth, secret, cachedTokens))))
                       end))
       (fun x => match x with
                 | (autoAuth, secret, cachedTokens) =>
                     bind (Get_useTokens env secret cachedTokens) (fun _ =>
                     Get_startLogin env autoAuth secret)
                 end)).
Proof.
  apply keeps_open_bind.
  - apply keeps_open_bind; [apply keeps_open_Get_config|intros [aa secret]].
    apply keeps_open_bind; [apply keeps_open_Get_client|intros _].
    apply keeps_open_bind; [apply keeps_open_Get_cachedTokens|intros toks].
    apply keeps_open_bind; [apply keeps_open_Get_renew|intros _].
    apply keeps_open_ret.
  - intros [[aa secret] toks].
    apply keeps_open_bind; [apply keeps_open_Get_useTokens|intros _].
    apply keeps_open_Get_startLogin.
Qed.

(** X10: When [Get] has no logger and the log file opens, the file is closed
    once, as the last thing [Get] does, on every path on which it returns
    (or panics) before the login is started, and stays open, its close
    deferred, while the login runs; nothing is closed before that, and
    what was deferred before is closed after it, in that order. *)
Theorem Get_closes_log_file
  (serverURL : string) (st : St env) (w1 : World env) (w : handle) :
  logger (self st) = None ->
  LogWriter env (world st) = (w1, ok w) ->
  exists evs,
    forallb notClose evs = true /\
    match Get env serverURL st with
    | (st', Spawns _) =>
        events st' = events st ++ EvLogWriter :: evs
        /\ deferred st' = w :: deferred st
    | (st', _) =>
        events st'
        = events st ++ EvLogWriter :: evs ++ EvClose w :: map EvClose (deferred st)
        /\ deferred st' = []
    end.
Proof.
  intros L W.
  set (st1 := mkSt w1 (mkHelper (Some (hclog_New (mkLogger "helper.get" ErrorLevel (Writer w))))
                         (client (self st)))
                (events st ++ [EvLogWriter]) (w :: deferred st)).
  assert (GL : Get_logger env st = (st1, Next tt)).
  { unfold Get_logger. rewrite L. unfold bind at 1. unfold call at 1. rewrite W.
    reflexivity. }
  unfold Get, Get_body, Get_prepare.
  rewrite (bind_bind_Next _ _ _ _ _ _ GL). cbv beta.
  match goal with
  | |- context [match ?m st1 with _ => _ end] =>
      assert (K : keeps_open m) by exact keeps_open_Get_rest;
      destruct (m st1) as [st' r] eqn:E
  end.
  destruct (K _ _ _ E) as (D & evs & Ev & N).
  exists evs. split; [exact N|].
  unfold st1 in D, Ev. simpl in D, Ev.
  destruct r as [hs|u p e|]; unfold runDeferred; simpl; rewrite Ev, D;
    simpl; rewrite <- !app_assoc; simpl; auto.
Qed.

End GetDeferred.

(* ================================================================== *)
(** * The handshake as a whole *)
(* ================================================================== *)

Section HandshakeMore.

Variable secret : string.

Lemma exchanged_app tr1 tr2 : exchanged (tr1 ++ tr2) = exchanged tr1 ++ exchanged tr2.
Proof.
  induction tr1 as [|l tr1 IH]; [reflexivity|].
  destruct l; simpl; rewrite ?IH; reflexivity.
Qed.

Lemma exec_snoc s tr s' l s'' :
  exec secret s tr s' -> step secret s' l s'' -> exec secret s (tr ++ [l]) s''.
Proof.
  intros E S. eapply exec_app; [exact E|].
  eapply exec_cons; [exact S | apply exec_nil].
Qed.

(** Executions, read from the end. *)
Lemma exec_ind_snoc (P : list label -> HState -> Prop) s :
  P [] s ->
  (forall tr s' l s'', exec secret s tr s' -> P tr s' -> step secret s' l s'' ->
                       P (tr ++ [l]) s'') ->
  forall tr s', exec secret s tr s' -> P tr s'.
Proof.
  intros H0 HS tr. induction tr as [|l tr IH] using rev_ind; intros s' E.
  - inversion E; subst. exact H0.
  - apply exec_app_inv in E. destruct E as (s1 & E1 & E2).
    inversion E2 as [|a l' b tr0 c Hs E3]; subst.
    inversion E3; subst.
    eapply HS; [exact E1 | apply IH; exact E1 | exact Hs].
Qed.

(** ** The client is used only when [Get] is alone *)

Lemma settled_step s l s' : step secret s l s' -> settled s -> settled s'.
Proof.
  intros H. inversion H; subst; unfold settled, tasks_ended; simpl; auto;
    try (match goal with q : PC |- _ => destruct q as [| | | |? [|]| | | | | | | | | | |] end;
         simpl; intuition (try discriminate; try congruence; auto)).
  all: intuition (try discriminate; try congruence; auto).
Qed.

Lemma settled_exec s tr s' : exec secret s tr s' -> settled s -> settled s'.
Proof.
  induction 1 as [|s l s1 tr s2 Hs He IH]; intros H; [exact H|].
  apply IH. eapply settled_step; eassumption.
Qed.

Lemma usesClient_settled s l s' :
  step secret s l s' -> usesClient l = true -> settled s -> tasks_ended s.
Proof.
  intros H U. inversion H; subst; simpl in U; try discriminate;
    unfold settled; simpl; auto.
Qed.

Lemma tasks_ended_step s l s' :
  step secret s l s' -> tasks_ended s -> of_Get l = true /\ tasks_ended s'.
Proof.
  intros H (A & D & C). inversion H; subst; unfold tasks_ended; simpl in *;
    try discriminate; try congruence; auto.
Qed.

Lemma tasks_ended_exec s tr s' :
  exec secret s tr s' -> tasks_ended s -> forallb of_Get tr = true /\ tasks_ended s'.
Proof.
  induction 1 as [|s l s1 tr s2 Hs He IH]; intros H; [auto|].
  destruct (tasks_ended_step _ _ _ Hs H) as (G & T).
  destruct (IH T) as (F & T'). simpl. rewrite G, F. auto.
Qed.

(** X13: [Get] sets the token of the client it shares with the two tasks, and
    reads the secret with it, only when both tasks have ended and the
    context is cancelled; and from its first use of the client on nothing
    but [Get] itself runs. *)
Theorem Get_uses_client_after_tasks_ended
  (hs : Handshake) (tr1 : list label) (l : label) (tr2 : list label) (s : HState) :
  exec secret (initial hs) (tr1 ++ l :: tr2) s ->
  usesClient l = true ->
  (exists s1, exec secret (initial hs) tr1 s1 /\ tasks_ended s1)
  /\ forallb of_Get (l :: tr2) = true
  /\ tasks_ended s.
Proof.
  intros E U. apply exec_app_inv in E. destruct E as (s1 & E1 & E2).
  assert (T : tasks_ended s1).
  { inversion E2 as [|a l' b tr0 c Hs E3]; subst.
    eapply usesClient_settled; [exact Hs | exact U |].
    eapply settled_exec; [exact E1|]. exact I. }
  split; [exists s1; auto|].
  exact (tasks_ended_exec _ _ _ E2 T).
Qed.

(** ** Which token is exchanged *)

Lemma written_snoc t tr l : written t tr -> written t (tr ++ [l]).
Proof. unfold written. rewrite in_app_iff. auto. Qed.

Lemma handed_snoc t tr l : handed t tr -> handed t (tr ++ [l]).
Proof. unfold handed. rewrite !in_app_iff. tauto. Qed.

Lemma provenance_step tr s l s' :
  provenance secret tr s -> step secret s l s' -> provenance secret (tr ++ [l]) s'.
Proof.
  intros P H.
  inversion H; subst; unfold provenance in *; simpl in *;
    try (match goal with q : PC |- _ => destruct q as [| | | |? [|]| | | | | | | | | | |] end;
         simpl in * );
    rewrite ?exchanged_app; simpl; rewrite ?app_nil_r.
  all: try exact P.
  all: try exact (proj1 P).
  all: try (match type of P with
            | _ /\ _ =>
                split;
                [exact (proj1 P)
                |first [apply written_snoc; exact (proj2 P)
                       |apply handed_snoc; exact (proj2 P)]]
            end).
  all: try (match type of P with
            | _ /\ _ =>
                split; [exact (proj1 P)|]; intros t0 E0;
                first [discriminate E0
                      |apply written_snoc; apply (proj2 P); exact E0
                      |inversion E0; subst; unfold written; rewrite in_app_iff;
                       right; left; reflexivity]
            end).
  all: try (match type of P with
            | _ /\ (forall _, _) =>
                split; [exact (proj1 P)|];
                first [apply written_snoc; apply (proj2 P); reflexivity
                      |unfold written; rewrite in_app_iff; right; left; reflexivity]
            end).
  all: try (destruct P as (t0 & e0 & P1 & P2 & P3); exists t0, e0;
            split; [exact P1|]; split; [apply handed_snoc; exact P2|];
            rewrite in_app_iff; left; exact P3).
  all: try (destruct P as [(P1 & P2) | (t0 & r0 & P1 & P2 & P3 & P4)];
            [left; split; assumption
            |right; exists t0, r0; split; [exact P1|]; split;
             [apply handed_snoc; exact P2|]; split;
             [rewrite in_app_iff; left; exact P3 | exact P4]]).
  - (* the handoff *)
    destruct P as [P P']. split; [exact P|]. unfold handed, written in *.
    rewrite !in_app_iff. split; [left; exact P' | right; left; reflexivity].
  - (* the timeout of the first select ends in a return *)
    left. split; [exact P | reflexivity].
  - (* the exchange succeeds *)
    destruct P as [P P']. right. exists tok, (ok creds). rewrite P.
    split; [reflexivity|]. split; [apply handed_snoc; exact P'|].
    split; [rewrite in_app_iff; right; left; reflexivity | reflexivity].
  - (* the exchange fails *)
    destruct P as [P P']. exists tok, e. rewrite P.
    split; [reflexivity|]. split; [apply handed_snoc; exact P'|].
    rewrite in_app_iff; right; left; reflexivity.
  - (* the failed exchange ends in a return *)
    destruct P as (t0 & e0 & P1 & P2 & P3). right. exists t0, (err e0).
    split; [exact P1|]. split; [apply handed_snoc; exact P2|].
    split; [rewrite in_app_iff; left; exact P3 | reflexivity].
Qed.

Lemma provenance_exec hs tr s :
  exec secret (initial hs) tr s -> provenance secret tr s.
Proof.
  apply (exec_ind_snoc (provenance secret)).
  - split; [reflexivity | discriminate].
  - intros tr0 s' l s'' _ P S. eapply provenance_step; eassumption.
Qed.

(** X14: In every run of the handshake [Get] reads the secret at most once,
    and only with a token that the Login Task has written in this run and
    that [Get] has handed to the Sink-Write Task; and it returns
    credentials only as the outcome of that one exchange, and "credentials
    not found" otherwise. *)
Theorem Get_exchanges_only_the_login_token
  (hs : Handshake) (tr : list label) (s : HState) :
  exec secret (initial hs) tr s ->
  (exchanged tr = [] \/ exists t, exchanged tr = [t] /\ handed t tr)
  /\ forall u p e,
       pc s = pc_returned u p e ->
       match e with
       | None =>
           exists t creds,
             exchanged tr = [t] /\ handed t tr
             /\ In (OGetCredentials secret t (ok creds)) tr
             /\ u = Username creds /\ p = Password creds
       | Some e' => u = "" /\ p = "" /\ e' = errCredentialsNotFound
       end.
Proof.
  intros E. pose proof (provenance_exec _ _ _ E) as P. unfold provenance in P.
  split.
  - destruct (pc s); try (left; tauto); try (left; exact P).
    + destruct P as (t & e & P1 & P2 & _). right. eauto.
    + destruct P as [(P1 & _) | (t & r & P1 & P2 & _)]; [left; exact P1 | right; eauto].
    + destruct P as [(P1 & _) | (t & r & P1 & P2 & _)]; [left; exact P1 | right; eauto].
  - intros u p e Q. rewrite Q in P.
    destruct P as [(P1 & P2) | (t & r & P1 & P2 & P3 & P4)].
    + inversion P2; subst. auto.
    + destruct r as [creds|e0]; simpl in P4; inversion P4; subst.
      * exists t, creds. auto.
      * auto.
Qed.

(** ** Where the handshake stops *)

(** X15: No run of the handshake has more than 17 steps; whatever [Get]
    returns is within the contract; and a run that can go no further has
    either returned, or has [Get] blocked in the send of line 209, holding
    a token of the Login Task that nobody will receive, with no exchange
    made. *)
Theorem Get_handshake_stops (hs : Handshake) (tr : list label) (s : HState) :
  exec secret (initial hs) tr s ->
  (List.length tr <= 17)%nat
  /\ returns_in_contract s
  /\ (terminal secret s ->
      (exists u p e, pc s = pc_returned u p e)
      \/ (exists token,
            pc s = pc_send token /\ is_done (sink s) = true
            /\ written token tr /\ exchanged tr = [])).
Proof.
  intros E. split; [|split].
  - pose proof (exec_fuel _ _ _ _ E) as F. unfold initial, fuel in F. simpl in F. lia.
  - eapply returns_in_contract_exec; [exact E | exact I].
  - intros T.
    destruct (terminal_returned_or_blocked secret s
                (parked_ok_exec _ _ _ _ E (parked_ok_initial hs)) T)
      as [R | (token & Q & D)]; [left; exact R|].
    right. exists token.
    pose proof (provenance_exec _ _ _ E) as P. unfold provenance in P.
    rewrite Q in P. destruct P as (P1 & P2).
    split; [exact Q|]. split; [exact D|]. split; [exact P2 | exact P1].
Qed.

End HandshakeMore.

(* ================================================================== *)
(** * The properties above, run *)
(* ================================================================== *)

(** Two file sinks are built from two configured file sinks. *)
Lemma buildSinks_ok_witness :
  let env := exampleEnv true [] "" true in
  let ss := [mkSink "file" 0 "" "" "" [("path", anyString "/tmp/token")];
             mkSink "file" 0 "" "" "" [("path", anyString "/tmp/other")]] in
  let r := buildSinks env ss (exampleReady env tt) in
  exists sinks,
    snd r = Next (ok sinks)
    /\ List.length sinks = 2%nat
    /\ sinksMade (events (fst r)) = 2%nat.
Proof.
  cbv zeta. eexists. split; [lazy; reflexivity|].
  match goal with
  | |- List.length ?s = _ /\ sinksMade (events (fst (buildSinks ?env ?ss ?st))) = _ =>
      destruct (buildSinks_ok env ss st (fst (buildSinks env ss st)) s)
        as (_ & _ & _ & Len & Made & _)
  end.
  - lazy. reflexivity.
  - split; [exact Len | exact Made].
Defined.

(** Of the three example sinks the second is of type "s3": the first is
    made, the third is not. *)
Lemma buildSinks_unknown_type_witness :
  let env := exampleEnv true [] "" true in
  exists st',
    buildSinks env exampleSinks (exampleReady env tt)
    = (st', Next (err (errorString ("Unknown sink type " ++ exampleQuote "s3"))))
    /\ sinksMade (events st') = 1%nat.
Proof.
  cbv zeta.
  destruct (buildSinks_unknown_type (exampleEnv true [] "" true)
              [mkSink "file" 0 "" "" "" [("path", anyString "/tmp/token")]]
              (mkSink "s3" 0 "" "" "" [])
              [mkSink "file" 0 "" "" "" [("path", anyString "/tmp/other")]]
              (exampleReady (exampleEnv true [] "" true) tt)
              (mkLogger "helper.get" ErrorLevel Stderr) (mkClient 1 ""))
    as (st' & E & M & _).
  - reflexivity.
  - reflexivity.
  - constructor; [reflexivity | constructor].
  - simpl. discriminate.
  - intros cfg w. reflexivity.
  - exists st'. split; [exact E | exact M].
Defined.

(** "ldap" is not a method the helper knows. *)
Lemma buildMethod_unknown_type_witness :
  let env := exampleEnv true [] "" true in
  let st := exampleReady env tt in
  buildMethod env (mkMethod "ldap" "auth/ldap" 0 []) st
  = (st, Next (err (errorString ("Unknown auth method " ++ exampleQuote "ldap")))).
Proof.
  cbv zeta.
  apply (buildMethod_unknown_type (exampleEnv true [] "" true)
           (mkMethod "ldap" "auth/ldap" 0 [])
           (exampleReady (exampleEnv true [] "" true) tt)
           (mkLogger "helper.get" ErrorLevel Stderr)).
  - reflexivity.
  - simpl. intros H.
    repeat (destruct H as [H|H]; [discriminate H|]). exact H.
Defined.

(** The approle method of the example configuration is built by the
    approle constructor. *)
Lemma buildMethod_ok_witness :
  let env := exampleEnv true [] "" true in
  let r := buildMethod env (mkMethod "approle" "auth/approle" 0 [])
             (exampleReady env tt) in
  In "approle" supportedMethods
  /\ events (fst r) = [EvNewAuthMethod approle].
Proof.
  cbv zeta.
  destruct (buildMethod_ok (exampleEnv true [] "" true)
              (mkMethod "approle" "auth/approle" 0 [])
              (exampleReady (exampleEnv true [] "" true) tt)
              (fst (buildMethod (exampleEnv true [] "" true)
                      (mkMethod "approle" "auth/approle" 0 [])
                      (exampleReady (exampleEnv true [] "" true) tt)))
              (mkAuthMethod approle 9))
    as (I & _ & Ev & _).
  - lazy. reflexivity.
  - split; [exact I | exact Ev].
Defined.

(** Two cached tokens are renewed, in their order. *)
Lemma Get_renew_all_witness :
  let env := exampleEnv true ["a"; "b"] "b" true in
  exists st',
    Get_renew env ["a"; "b"] (exampleReady env tt) = (st', Next tt)
    /\ renewals (events st') = ["a"; "b"].
Proof.
  cbv zeta.
  destruct (Get_renew_all (exampleEnv true ["a"; "b"] "b" true) ["a"; "b"]
              (exampleReady (exampleEnv true ["a"; "b"] "b" true) tt)
              (mkLogger "helper.get" ErrorLevel Stderr) (mkClient 1 "")
              eq_refl eq_refl)
    as (st' & E & R & _).
  exists st'. split; [exact E | exact R].
Defined.

(** A configuration without "secret": one error is logged, nothing else
    is done. *)
Lemma Get_invalid_configuration_not_found_witness :
  let env := exampleEnvWithConfig (Some exampleConfigNoSecret) None (ok (mkClient 1 "")) in
  let st := exampleReady env tt in
  exists msg,
    Get env "registry.example.com" st
    = (@mkSt env tt (self st)
         [EvGetenv envConfigFile; EvLoadConfig defaultConfigFile;
          EvLog "helper.get" ErrorLevel msg]
         [],
       Returns "" "" (Some errCredentialsNotFound)).
Proof.
  cbv zeta.
  destruct (Get_invalid_configuration_not_found
              (exampleEnvWithConfig (Some exampleConfigNoSecret) None (ok (mkClient 1 "")))
              "registry.example.com"
              (exampleReady (exampleEnvWithConfig (Some exampleConfigNoSecret) None (ok (mkClient 1 ""))) tt)
              (mkLogger "helper.get" ErrorLevel Stderr) tt
              (Some exampleConfigNoSecret) None)
    as (msg & E).
  - reflexivity.
  - reflexivity.
  - right. right. right.
    exists exampleConfigNoSecret,
           (mkAutoAuth (mkMethod "approle" "auth/approle" 0 []) []).
    split; [reflexivity|]. split; [reflexivity|].
    intros s. simpl. discriminate.
  - exists msg. exact E.
Defined.

(** The log file opened for a call that reads the secret with its second
    cached token is closed last. *)
Lemma Get_closes_log_file_witness :
  let env := exampleEnv true ["a"; "b"] "b" true in
  let st := start env (NewHelper None) tt in
  exists evs,
    forallb notClose evs = true
    /\ events (fst (Get env "registry.example.com" st))
       = EvLogWriter :: evs ++ [EvClose 3%Z].
Proof.
  cbv zeta.
  destruct (Get_closes_log_file (exampleEnv true ["a"; "b"] "b" true)
              "registry.example.com"
              (start (exampleEnv true ["a"; "b"] "b" true) (NewHelper None) tt)
              tt 3%Z eq_refl eq_refl)
    as (evs & N & M).
  exists evs. split; [exact N|].
  assert (G : snd (Get (exampleEnv true ["a"; "b"] "b" true) "registry.example.com"
                     (start (exampleEnv true ["a"; "b"] "b" true) (NewHelper None) tt))
              = Returns "docker" "hunter2" None) by (lazy; reflexivity).
  destruct (Get (exampleEnv true ["a"; "b"] "b" true) "registry.example.com"
              (start (exampleEnv true ["a"; "b"] "b" true) (NewHelper None) tt))
    as [st' o].
  simpl in G. subst o. exact (proj1 M).
Defined.

(** A call that reads the secret with its second cached token returns
    within the contract. *)
Lemma Get_contract_unless_log_file_fails_witness :
  contract "docker" "hunter2" None.
Proof.
  apply (Get_contract_unless_log_file_fails
           (exampleEnv true ["a"; "b"] "b" true) "registry.example.com"
           (start (exampleEnv true ["a"; "b"] "b" true) (NewHelper None) tt)
           (BReturns "docker" "hunter2" None)).
  - right. exists 3%Z. reflexivity.
  - eapply behaves_returns. lazy. reflexivity.
Defined.

(** The deadline finds [Get] blocked in its second [select] while the
    token is being written. *)
Lemma Get_sink_deadline_not_found_witness :
  actions sink_timeout_trace = timeout_actions Second
  /\ exchanged sink_timeout_trace = [].
Proof.
  destruct (Get_sink_deadline_not_found "secret/docker" "s.fresh" exampleParked
              sink_timeout_trace
              (mkHState (pc_returned "" "" (Some errCredentialsNotFound)) true
                 AuthDone None (SinkDone None) ""))
    as (X & R & _).
  - reflexivity.
  - unfold exampleParked, sink_timeout_trace.
    eapply exec_cons; [apply step_deadline|]. simpl.
    eapply exec_cons; [apply step_timeout|].
    eapply exec_cons;
      [apply step_auth_exit with (why := ExitCancelled);
       [discriminate | reflexivity]|].
    eapply exec_cons; [apply step_timeout_auth|].
    eapply exec_cons;
      [apply step_sink_exit with (why := ExitCancelled); reflexivity|]. simpl.
    eapply exec_cons; [apply step_timeout_sink|].
    eapply exec_cons; [apply step_return|].
    apply exec_nil.
  - split; [|exact X].
    exact (proj1 (proj2 (R "" "" (Some errCredentialsNotFound) eq_refl))).
Defined.

Lemma exec_unpersisted_trace (hs : Handshake) (token : string) (creds : Credentials) :
  exec (hs_secret hs) (initial hs) (unpersisted_trace (hs_secret hs) token creds)
    (mkHState (pc_returned (Username creds) (Password creds) None) true AuthDone
       None (SinkDone None) token).
Proof.
  unfold initial, unpersisted_trace.
  eapply exec_cons; [apply step_select1_park|].
  eapply exec_cons; [apply step_auth_output|]. simpl.
  eapply exec_cons; [apply step_got_token|].
  eapply exec_cons; [apply step_handoff|].
  eapply exec_cons; [apply step_deadline|]. simpl.
  eapply exec_cons;
    [apply step_sink_exit with (why := ExitCancelled); reflexivity|]. simpl.
  eapply exec_cons; [apply step_select2_sink|].
  eapply exec_cons; [apply step_sink_done|].
  eapply exec_cons; [apply step_cancel|].
  eapply exec_cons;
    [apply step_auth_exit with (why := ExitCancelled);
     [discriminate | reflexivity]|].
  eapply exec_cons; [apply step_wait_auth|].
  eapply exec_cons; [apply step_set_token|].
  eapply exec_cons; [apply step_get_creds_ok|].
  eapply exec_cons; [apply step_return|].
  apply exec_nil.
Qed.

(** In the run in which the token is exchanged unwritten, the client is
    still used only after both tasks have ended. *)
Lemma Get_uses_client_after_tasks_ended_witness :
  let tr := unpersisted_trace "secret/docker" "s.fresh" exampleCredentials in
  nth 11 tr LDeadline = OSetToken "s.fresh"
  /\ forallb of_Get (skipn 11 tr) = true
  /\ (exists s1, exec "secret/docker" (initial exampleHandshake) (firstn 11 tr) s1
                 /\ tasks_ended s1).
Proof.
  cbv zeta.
  destruct (Get_uses_client_after_tasks_ended "secret/docker" exampleHandshake
              (firstn 11 (unpersisted_trace "secret/docker" "s.fresh" exampleCredentials))
              (OSetToken "s.fresh")
              (skipn 12 (unpersisted_trace "secret/docker" "s.fresh" exampleCredentials))
              (mkHState (pc_returned "docker" "hunter2" None) true AuthDone
                 None (SinkDone None) "s.fresh"))
    as (S1 & F & _).
  - exact (exec_unpersisted_trace exampleHandshake "s.fresh" exampleCredentials).
  - reflexivity.
  - split; [reflexivity|]. split; [exact F | exact S1].
Defined.

(** In that run the one exchange is made with the token of the login. *)
Lemma Get_exchanges_only_the_login_token_witness :
  let tr := unpersisted_trace "secret/docker" "s.fresh" exampleCredentials in
  exists t creds,
    exchanged tr = [t] /\ handed t tr
    /\ In (OGetCredentials "secret/docker" t (ok creds)) tr
    /\ "docker" = Username creds /\ "hunter2" = Password creds.
Proof.
  cbv zeta.
  destruct (Get_exchanges_only_the_login_token "secret/docker" exampleHandshake
              (unpersisted_trace "secret/docker" "s.fresh" exampleCredentials)
              (mkHState (pc_returned "docker" "hunter2" None) true AuthDone
                 None (SinkDone None) "s.fresh"))
    as (_ & R).
  - exact (exec_unpersisted_trace exampleHandshake "s.fresh" exampleCredentials).
  - exact (R "docker" "hunter2" None eq_refl).
Defined.

(** The run that ends blocked in the send is short, and has returned
    nothing. *)
Lemma Get_handshake_stops_witness :
  (List.length (blocking_trace "s.fresh") <= 17)%nat
  /\ exists token,
       written token (blocking_trace "s.fresh")
       /\ exchanged (blocking_trace "s.fresh") = [].
Proof.
  destruct (Get_handshake_stops "secret/docker" exampleHandshake
              (blocking_trace "s.fresh")
              (mkHState (pc_send "s.fresh") true AuthDone None (SinkDone None) ""))
    as (B & _ & T).
  - exact (exec_blocking_trace "secret/docker" exampleHandshake "s.fresh").
  - split; [exact B|].
    destruct (T (blocked_send_terminal "secret/docker" "s.fresh" None None ""))
      as [(u & p & e & Q) | (token & _ & _ & W & X)].
    + discriminate Q.
    + exists token. split; [exact W | exact X].
Defined.

(** No client can be made: one error is logged after the configuration
    was read. *)
Lemma Get_client_failure_not_found_witness :
  let env := exampleEnvWithConfig (Some exampleConfig) None
               (err (errorString "no address")) in
  let h := mkHelper (Some (mkLogger "helper.get" ErrorLevel Stderr)) None in
  Get env "registry.example.com" (start env h tt)
  = (@mkSt env tt h
       [EvGetenv envConfigFile; EvLoadConfig defaultConfigFile; EvNewClient;
        EvLog "helper.get" ErrorLevel "Error creating new Vault API client"]
       [],
     Returns "" "" (Some errCredentialsNotFound)).
Proof.
  cbv zeta.
  apply (Get_client_failure_not_found
           (exampleEnvWithConfig (Some exampleConfig) None
              (err (errorString "no address")))
           "registry.example.com"
           (start (exampleEnvWithConfig (Some exampleConfig) None
                     (err (errorString "no address")))
              (mkHelper (Some (mkLogger "helper.get" ErrorLevel Stderr)) None) tt)
           (mkLogger "helper.get" ErrorLevel Stderr) tt tt exampleConfig
           (mkAutoAuth
              (mkMethod "approle" "auth/approle" 0
                 [("secret", anyString "secret/docker")])
              [mkSink "file" 0 "" "" "" [("path", anyString "/tmp/token")]])
           "secret/docker" (errorString "no address"));
    reflexivity.
Defined.

(* ================================================================== *)
(** * The signed request of the IAM login *)
(* ================================================================== *)

Section IAMAuth.

Local Open Scope nat_scope.

Lemma sapp_assoc (a b c : string) : ((a ++ b) ++ c = a ++ b ++ c)%string.
Proof. induction a as [|x a IH]; simpl; [reflexivity | rewrite IH; reflexivity]. Qed.

Lemma slength_app (a b : string) :
  String.length (a ++ b) = String.length a + String.length b.
Proof. induction a as [|x a IH]; simpl; [reflexivity | rewrite IH; reflexivity]. Qed.

Lemma substring_app (a b : string) : substring 0 (String.length a) (a ++ b) = a.
Proof.
  induction a as [|x a IH]; simpl.
  - destruct b; reflexivity.
  - rewrite IH. reflexivity.
Qed.

Lemma slice_to_app (a b : string) n :
  String.length a = n -> aws.slice_to (a ++ b) n = Some a.
Proof.
  intros <-. unfold aws.slice_to. rewrite slength_app.
  replace (String.length a <=? String.length a + String.length b) with true
    by (symmetry; apply Nat.leb_le; lia).
  rewrite substring_app. reflexivity.
Qed.

Lemma Replace_char_cons (o c : ascii) (s : string) :
  aws.Replace (String c s) (String o "") ""
  = if ascii_dec o c then aws.Replace s (String o "") ""
    else String c (aws.Replace s (String o "") "").
Proof.
  unfold aws.Replace. simpl. destruct (ascii_dec o c); [|reflexivity].
  destruct s; reflexivity.
Qed.

Lemma Replace_char_same (o : ascii) (s : string) :
  aws.Replace (String o s) (String o "") "" = aws.Replace s (String o "") "".
Proof. rewrite Replace_char_cons. destruct (ascii_dec o o); congruence. Qed.

Lemma Replace_char_other (o c : ascii) (s : string) :
  Ascii.eqb o c = false ->
  aws.Replace (String c s) (String o "") "" = String c (aws.Replace s (String o "") "").
Proof.
  intros E. rewrite Replace_char_cons.
  destruct (ascii_dec o c) as [->|_]; [|reflexivity].
  rewrite Ascii.eqb_refl in E. discriminate E.
Qed.

(** Digits are left alone when anything that is not a digit is replaced. *)
Lemma Replace_char_digits (o : ascii) (x rest : string) :
  aws.isDigit o = false -> aws.digits x = true ->
  aws.Replace (x ++ rest) (String o "") "" = (x ++ aws.Replace rest (String o "") "")%string.
Proof.
  intros O. induction x as [|c x IH]; intros D; [reflexivity|].
  simpl in D. apply andb_prop in D. destruct D as [Dc Dx].
  change (String c x ++ rest)%string with (String c (x ++ rest)).
  rewrite Replace_char_cons. destruct (ascii_dec o c) as [E|_].
  - subst. congruence.
  - rewrite (IH Dx). reflexivity.
Qed.

Ltac replace_char o :=
  repeat first
    [ rewrite (Replace_char_digits o) by (reflexivity || assumption)
    | match goal with
      | |- context [aws.Replace (String ?c ?r ++ ?r')%string (String o "") ""] =>
          change (String c r ++ r')%string with (String c (r ++ r'))
      end
    | rewrite (Replace_char_same o)
    | rewrite (Replace_char_other o) by reflexivity ].

Lemma isField_inv n s :
  aws.isField n s = true -> String.length s = n /\ aws.digits s = true.
Proof.
  unfold aws.isField. intros H. apply andb_prop in H. destruct H as [L D].
  apply Nat.eqb_eq in L. auto.
Qed.

Lemma isInstant_inv y mo d h mi s :
  aws.isInstant y mo d h mi s = true ->
  (String.length y = 4 /\ String.length mo = 2 /\ String.length d = 2
   /\ String.length h = 2 /\ String.length mi = 2 /\ String.length s = 2)
  /\ (aws.digits y = true /\ aws.digits mo = true /\ aws.digits d = true
      /\ aws.digits h = true /\ aws.digits mi = true /\ aws.digits s = true).
Proof.
  unfold aws.isInstant. intros I.
  apply andb_prop in I. destruct I as [I F6]. apply isField_inv in F6.
  apply andb_prop in I. destruct I as [I F5]. apply isField_inv in F5.
  apply andb_prop in I. destruct I as [I F4]. apply isField_inv in F4.
  apply andb_prop in I. destruct I as [I F3]. apply isField_inv in F3.
  apply andb_prop in I. destruct I as [F1 F2].
  apply isField_inv in F1. apply isField_inv in F2. tauto.
Qed.

Lemma nowAsISO8601_rfc3339 (env : aws.Env) (y mo d h mi s zone : string) :
  aws.Now_UTC_RFC3339 env = aws.rfc3339 y mo d h mi s zone ->
  aws.isInstant y mo d h mi s = true ->
  aws.nowAsISO8601 env = Some (aws.iso8601_basic y mo d h mi s).
Proof.
  intros N I.
  destruct (isInstant_inv _ _ _ _ _ _ I)
    as ((Ly & Lmo & Ld & Lh & Lmi & Ls) & (Dy & Dmo & Dd & Dh & Dmi & Ds)).
  unfold aws.nowAsISO8601. rewrite N. unfold aws.rfc3339, aws.iso8601_basic.
  replace (y ++ "-" ++ mo ++ "-" ++ d ++ "T" ++ h ++ ":" ++ mi ++ ":" ++ s ++ zone)%string
    with ((y ++ "-" ++ mo ++ "-" ++ d ++ "T" ++ h ++ ":" ++ mi ++ ":" ++ s) ++ zone)%string
    by (rewrite !sapp_assoc; reflexivity).
  rewrite (slice_to_app _ zone 19)
    by (rewrite !slength_app, Ly, Lmo, Ld, Lh, Lmi, Ls; reflexivity).
  rewrite !sapp_assoc. f_equal.
  replace_char "-"%char.
  change (aws.Replace "" "-" "") with ""%string.
  replace_char ":"%char.
  reflexivity.
Qed.

(** X16: When the clock's RFC 3339 text has a four-digit year and two-digit
    month, day, hour, minute and second, [nowAsISO8601] gives the same
    instant in the basic format [YYYYMMDD'T'HHMMSS'Z']: sixteen bytes,
    the separators gone, the digits and the [T] kept, and [Z] for the
    zone whatever the text had there. *)
Theorem nowAsISO8601_basic_format (env : aws.Env) (y mo d h mi s zone : string) :
  aws.Now_UTC_RFC3339 env = aws.rfc3339 y mo d h mi s zone ->
  aws.isInstant y mo d h mi s = true ->
  aws.nowAsISO8601 env = Some (aws.iso8601_basic y mo d h mi s)
  /\ String.length (aws.iso8601_basic y mo d h mi s) = 16.
Proof.
  intros N I. split; [exact (nowAsISO8601_rfc3339 env y mo d h mi s zone N I)|].
  destruct (isInstant_inv _ _ _ _ _ _ I) as ((Ly & Lmo & Ld & Lh & Lmi & Ls) & _).
  unfold aws.iso8601_basic. rewrite !slength_app, Ly, Lmo, Ld, Lh, Lmi, Ls.
  reflexivity.
Qed.

(** X17: With credentials in the shared file and a signing function that
    succeeds and leaves the headers alone, [GetIAMAuthElements] has the
    POST of [Action=GetCallerIdentity] to [https://sts.amazonaws.com/]
    signed with five headers (among them the instant in the basic format
    and the length of the body, 43), none of them [Authorization], and
    hands back that request with the signature as its sixth header. *)
Theorem GetIAMAuthElements_signed_request
  (env : aws.Env) (y mo d h mi s zone : string) (val : aws.Value) (auth : string) :
  let headers := [("Accept-Encoding", "identity");
                  ("Content-Type", "application/x-www-form-urlencoded");
                  ("Host", "sts.amazonaws.com");
                  ("X-Amz-Date", aws.iso8601_basic y mo d h mi s);
                  ("Content-Length", "43")]%string in
  let params := aws.mkRequestParams "sts" "us-east-1" "POST"
                  "https://sts.amazonaws.com/" headers aws.RequestBody
                  (aws.AccessKeyID val) (aws.SecretAccessKey val) in
  aws.Now_UTC_RFC3339 env = aws.rfc3339 y mo d h mi s zone ->
  aws.isInstant y mo d h mi s = true ->
  aws.Retrieve env = helper.ok val ->
  aws.makeAuthorizationHeader env params = (headers, helper.ok auth) ->
  aws.get "Authorization" headers = None
  /\ aws.GetIAMAuthElements env
     = Some (Some (aws.mkIAMAuthElements "POST" "https://sts.amazonaws.com/"
                     aws.RequestBody
                     (headers ++ [("Authorization", auth)]%string)),
             None).
Proof.
  intros headers params N I R A. split; [reflexivity|].
  unfold aws.GetIAMAuthElements. rewrite R.
  unfold aws.makeSTSGetCallerIdentityRequestHeaders.
  rewrite (nowAsISO8601_rfc3339 env y mo d h mi s zone N I).
  cbv zeta.
  change (aws.set "Content-Length" (aws.Sprintf_d (String.length aws.RequestBody))
            [("Accept-Encoding", "identity");
             ("Content-Type", "application/x-www-form-urlencoded");
             ("Host", aws.Host);
             ("X-Amz-Date", aws.iso8601_basic y mo d h mi s)]%string)
    with headers.
  change (aws.mkRequestParams aws.Service aws.Region aws.RequestMethod
            ("https://" ++ aws.Host ++ "/") headers aws.RequestBody
            (aws.AccessKeyID val) (aws.SecretAccessKey val))
    with params.
  rewrite A. reflexivity.
Qed.

End IAMAuth.

(** The clock of the example stands at 2018-11-08 21:41:07 UTC. *)
Lemma nowAsISO8601_basic_format_witness :
  aws.nowAsISO8601 aws.exampleEnv = Some "20181108T214107Z"%string.
Proof.
  exact (proj1 (nowAsISO8601_basic_format aws.exampleEnv
                  "2018" "11" "08" "21" "41" "07" "Z" eq_refl eq_refl)).
Defined.

(** The request of the example has six headers, the signature last. *)
Lemma GetIAMAuthElements_signed_request_witness :
  exists e,
    aws.GetIAMAuthElements aws.exampleEnv = Some (Some e, None)
    /\ map fst (aws.Headers e)
       = ["Accept-Encoding"; "Content-Type"; "Host"; "X-Amz-Date";
          "Content-Length"; "Authorization"]%string
    /\ aws.get "X-Amz-Date" (aws.Headers e) = Some "20181108T214107Z"%string.
Proof.
  destruct (GetIAMAuthElements_signed_request aws.exampleEnv
              "2018" "11" "08" "21" "41" "07" "Z"
              (aws.mkValue "AKIDEXAMPLE" "secret")
              "AWS4-HMAC-SHA256 Credential=AKIDEXAMPLE"
              eq_refl eq_refl eq_refl eq_refl)
    as (_ & G).
  eexists. split; [exact G|]. split; reflexivity.
Defined.
